(** * FloatMagic: the container library of [mj_common.h]

    A shallow embedding of [mj::ArrayList] (the growable array), of
    [mj::ArrayListView], of [mj::MemoryBuffer] (the bounded read/write
    cursor) and of [minmax] and [swap], followed by the properties that
    the specification states and by further properties of the code.

    Conventions of the embedding.
    - [uint32_t] values are integers of [Z]; every 32-bit operation of the
      source is written with its reduction modulo [2^32] ([wrap32]).
      [size_t] and [ptrdiff_t] are 64 bits wide ([wrap64]); the product of
      a 32-bit count and [sizeof(T)] that the source computes in 64 bits
      cannot overflow and is written without reduction.
    - A [T*] is a [pointer]: the block it points into and an element index
      inside that block.  The null pointer is block [0], index [0].
    - The storage an array owns is the list of the slots of its block; a
      slot is [None] while nothing has been written to it.
    - [memmove], [memcpy] and the store [*ptr = t] only touch slots of the
      block.  A call that would leave the block has no defined result in
      C++; the embedding returns [Undefined] for it. *)

From Stdlib Require Import ZArith NArith Lia ZifyBool Bool List.
From Stdlib.Strings Require Import Byte.
From stdpp Require Import base list.
Import ListNotations.

Local Open Scope Z_scope.

(** ** Machine integers *)

Definition wrap32 (z : Z) : Z := z mod 2 ^ 32.
Definition wrap64 (z : Z) : Z := z mod 2 ^ 64.

(** ** Results of calls *)

(** [Done x]: the call returns [x].  [Undefined]: the call reads or writes
    outside the storage block.  [OutOfFuel]: the bound on the number of
    nested calls was reached (shown below never to happen). *)
Inductive outcome (X : Type) : Type :=
| Done (x : X)
| Undefined
| OutOfFuel.

Arguments Done {X} x.
Arguments Undefined {X}.
Arguments OutOfFuel {X}.

(** ** Pointers *)

Record pointer : Type := Ptr { block : Z; index : Z }.

Definition nullptr : pointer := Ptr 0 0.

Definition is_null (p : pointer) : bool := (block p =? 0) && (index p =? 0).

Definition ptr_add (p : pointer) (k : Z) : pointer := Ptr (block p) (index p + k).

Definition ptr_ltb (p q : pointer) : bool := index p <? index q.

Definition ptr_diff (p q : pointer) : Z := index p - index q.

(** ** The allocator interface *)

(** Modelled from the spec: the allocator interface of [mj_allocator.h],
    which is not among the sources at hand.  [Allocate(byteSize)] returns a
    pointer to a new block, or null when the allocator is exhausted;
    [Free(pointer)] gives a block back.  The state of the allocator is
    passed explicitly; [Some b] is a pointer to the start of the fresh
    block [b], [None] is the null pointer. *)
Class Allocator (A : Type) : Type := {
  Allocate : A -> Z -> option positive * A;
  Free : A -> pointer -> A
}.

(** An allocator that is never exhausted. *)
Definition never_fails (A : Type) `{Allocator A} : Prop :=
  forall (al : A) (n : Z), fst (Allocate al n) <> None.

Definition block_start (r : option positive) : pointer :=
  match r with
  | Some b => Ptr (Z.pos b) 0
  | None => nullptr
  end.

(** An allocator that never runs out of blocks: its state is the next free
    block number. *)
Definition Unbounded := positive.

#[export] Instance Unbounded_Allocator : Allocator Unbounded := {
  Allocate al _ := (Some al, Pos.succ al);
  Free al _ := al
}.

(** An allocator with a budget of bytes; blocks given back are not
    reused. *)
Record Arena : Type := mkArena { next_block : positive; bytes_left : Z }.

#[export] Instance Arena_Allocator : Allocator Arena := {
  Allocate al n :=
    if n <=? bytes_left al
    then (Some (next_block al), mkArena (Pos.succ (next_block al)) (bytes_left al - n))
    else (None, al);
  Free al _ := al
}.

(** ** mj::ArrayList *)

Module ArrayList.

Section ArrayList.

Context {A : Type} `{Allocator A}.

(** The element type and [TSize = sizeof(T)]. *)
Variable T : Type.
Variable TSize : positive.

Definition slot : Type := option T.

Local Abbreviation len l := (Z.of_nat (length l)) (only parsing).

(** [pAllocator] points to an allocator shared with the rest of the
    program: its state is an argument and a result of the functions that
    use it.  [storage] is the content of the block at [pData]. *)
Record ArrayList : Type := mkArrayList {
  pData : pointer;
  storage : list slot;
  numElements : Z;
  capacity : Z
}.

Definition set_numElements (a : ArrayList) (n : Z) : ArrayList :=
  mkArrayList (pData a) (storage a) n (capacity a).

(** [memmove] and [memcpy]: copy [bytes] bytes from element [src] of the
    block [from] to element [dst] of the block [to], as if through a
    temporary buffer.  The result is the new content of [to]; there is
    none when a range leaves its block or when [bytes] is not a whole
    number of elements. *)
Definition copy_bytes (to : list slot) (dst : Z) (from : list slot) (src : Z)
    (bytes : Z) : option (list slot) :=
  let n := bytes / Z.pos TSize in
  if (bytes mod Z.pos TSize =? 0) && (0 <=? n)
     && (0 <=? src) && (src + n <=? len from)
     && (0 <=? dst) && (dst + n <=? len to)
  then Some (take (Z.to_nat dst) to
             ++ take (Z.to_nat n) (drop (Z.to_nat src) from)
             ++ drop (Z.to_nat (dst + n)) to)
  else None.

(** [*ptr = t] *)
Definition store (s : list slot) (i : Z) (t : T) : option (list slot) :=
  if (0 <=? i) && (i <? len s)
  then Some (<[Z.to_nat i := Some t]> s)
  else None.

(** The constructor that takes only the allocator; it allocates nothing. *)
Definition empty : ArrayList := mkArrayList nullptr [] 0 0.

(** The constructor with an initial capacity. *)
Definition with_capacity (al : A) (cap : Z) : ArrayList * A :=
  let '(r, al1) := Allocate al (wrap32 (cap * Z.pos TSize)) in
  (mkArrayList (block_start r)
     (replicate (Z.to_nat (match r with
                           | Some _ => wrap32 (cap * Z.pos TSize) / Z.pos TSize
                           | None => 0
                           end)) None)
     0 cap, al1).

Definition Size (a : ArrayList) : Z := numElements a.
Definition Capacity (a : ArrayList) : Z := capacity a.
Definition ElemSize : Z := Z.pos TSize.
Definition Get (a : ArrayList) : pointer := pData a.
Definition begin (a : ArrayList) : pointer := pData a.
Definition end_ (a : ArrayList) : pointer := ptr_add (pData a) (Size a).

(** The live elements: the first [numElements] slots. *)
Definition elements (a : ArrayList) : list slot :=
  take (Z.to_nat (numElements a)) (storage a).

(** [Expand(newCapacity)]: the byte size is a product of two [uint32_t].
    The block the allocator returns holds [bytes / ElemSize()] whole
    slots, all of them empty before the [memcpy]. *)
Definition Expand (a : ArrayList) (al : A) (newCapacity : Z)
  : outcome (bool * ArrayList * A) :=
  let bytes := wrap32 (newCapacity * ElemSize) in
  let '(r, al1) := Allocate al bytes in
  let ptr := block_start r in
  if negb (is_null ptr) then
    let fresh := replicate (Z.to_nat (bytes / ElemSize)) None in
    match copy_bytes fresh 0 (storage a) 0 (numElements a * ElemSize) with
    | Some s =>
        Done (true, mkArrayList ptr s (numElements a) newCapacity,
              Free al1 (pData a))
    | None => Undefined
    end
  else
    Done (false, a, al1).

Definition Double (a : ArrayList) (al : A) : outcome (bool * ArrayList * A) :=
  if capacity a =? 0 then Expand a al 4
  else Expand a al (wrap32 (2 * capacity a)).

(** [Reserve(num)], [Insert(position, pSrc, num)] and [Add(t)] call
    themselves after a successful growth; [depth] bounds the number of
    nested calls. *)
Fixpoint Reserve_rec (depth : nat) (a : ArrayList) (al : A) (num : Z)
  : outcome (pointer * ArrayList * A) :=
  if num =? 0 then Done (nullptr, a, al)
  else if wrap32 (numElements a + num) <=? capacity a then
    let ptr := ptr_add (pData a) (numElements a) in
    Done (ptr, set_numElements a (wrap32 (numElements a + num)), al)
  else
    match Expand a al (wrap32 (numElements a + num)) with
    | Done (true, a1, al1) =>
        match depth with
        | S d => Reserve_rec d a1 al1 num
        | O => OutOfFuel
        end
    | Done (false, a1, al1) => Done (nullptr, a1, al1)
    | Undefined => Undefined
    | OutOfFuel => OutOfFuel
    end.

(** What a pointer [pSrc] that is not null points to: elements outside
    the storage of the array, the slot [i] of the storage of the array
    itself, or a block that was given back to the allocator. *)
Inductive source : Type :=
| Outside (src : list T)
| Inside (i : Z)
| Stale.

(** [memcpy(s + dst, pSrc, bytes)] into the storage [s].  A source inside
    the storage is read from [s] as it is when the [memcpy] runs; the
    [memcpy] of two ranges of [s] that overlap has no defined result, and
    neither has reading a block that was given back. *)
Definition copy_in (s : list slot) (dst : Z) (pSrc : source) (bytes : Z)
  : option (list slot) :=
  match pSrc with
  | Outside src => copy_bytes s dst (Some <$> src) 0 bytes
  | Inside i =>
      let n := bytes / Z.pos TSize in
      if (i <? dst + n) && (dst <? i + n) then None
      else copy_bytes s dst s i bytes
  | Stale => None
  end.

(** What [pSrc] points to once [Expand] has given the storage back. *)
Definition left_behind (pSrc : option source) : option source :=
  match pSrc with
  | Some (Inside _) => Some Stale
  | _ => pSrc
  end.

(** [pSrc] is [None] for a null pointer. *)
Fixpoint Insert_rec (depth : nat) (a : ArrayList) (al : A) (position : Z)
    (pSrc : option source) (num : Z) : outcome (pointer * ArrayList * A) :=
  if num =? 0 then Done (end_ a, a, al)
  else
    match pSrc with
    | None => Done (nullptr, a, al)
    | Some src =>
        if numElements a <? position then Done (nullptr, a, al)
        else if wrap32 (numElements a + num) <=? capacity a then
          let numMove := wrap32 (numElements a - position) in
          let ptr := ptr_add (begin a) position in
          match copy_bytes (storage a)
                  (index (ptr_add (ptr_add (end_ a) num) (- numMove)))
                  (storage a) (index ptr)
                  (wrap32 (numMove * Z.pos TSize)) with
          | Some s1 =>
              match copy_in s1 (index ptr) src (wrap32 (num * Z.pos TSize)) with
              | Some s2 =>
                  Done (ptr,
                        mkArrayList (pData a) s2
                          (wrap32 (numElements a + num)) (capacity a),
                        al)
              | None => Undefined
              end
          | None => Undefined
          end
        else
          match Expand a al (wrap32 (numElements a + num)) with
          | Done (true, a1, al1) =>
              match depth with
              | S d => Insert_rec d a1 al1 position (left_behind pSrc) num
              | O => OutOfFuel
              end
          | Done (false, a1, al1) => Done (nullptr, a1, al1)
          | Undefined => Undefined
          | OutOfFuel => OutOfFuel
          end
    end.

(** [Erase(position, num)]: the length of the [memmove] is a [ptrdiff_t]
    times [TSize]. *)
Definition Erase (a : ArrayList) (position num : Z)
  : outcome (pointer * ArrayList) :=
  if position <? numElements a then
    let pDst := ptr_add (begin a) position in
    let pSrc := ptr_add pDst num in
    if ptr_ltb pSrc (end_ a) then
      match copy_bytes (storage a) (index pDst) (storage a) (index pSrc)
              ((ptr_diff (end_ a) pDst - 1) * Z.pos TSize) with
      | Some s =>
          Done (pDst,
                mkArrayList (pData a) s (wrap32 (numElements a - num))
                  (capacity a))
      | None => Undefined
      end
    else Done (nullptr, a)
  else Done (nullptr, a).

(** [Add(t)]; the [nullptr] it returns when the growth fails is the
    [bool] [false]. *)
Fixpoint Add_rec (depth : nat) (a : ArrayList) (al : A) (t : T)
  : outcome (bool * ArrayList * A) :=
  if numElements a <? capacity a then
    let ptr := ptr_add (pData a) (numElements a) in
    match store (storage a) (index ptr) t with
    | Some s =>
        Done (true,
              mkArrayList (pData a) s (wrap32 (numElements a + 1))
                (capacity a),
              al)
    | None => Undefined
    end
  else
    match Double a al with
    | Done (true, a1, al1) =>
        match depth with
        | S d => Add_rec d a1 al1 t
        | O => OutOfFuel
        end
    | Done (false, a1, al1) => Done (false, a1, al1)
    | Undefined => Undefined
    | OutOfFuel => OutOfFuel
    end.

(** One nested call is all [Reserve] and [Insert] ever make, two are all
    [Add] ever makes, whatever the state ([Reserve_total], [Insert_total],
    [Add_total]). *)
Definition Reserve : ArrayList -> A -> Z -> outcome (pointer * ArrayList * A) :=
  Reserve_rec 1.

Definition Insert
  : ArrayList -> A -> Z -> option source -> Z -> outcome (pointer * ArrayList * A) :=
  Insert_rec 1.

Definition Add : ArrayList -> A -> T -> outcome (bool * ArrayList * A) :=
  Add_rec 2.

(** [Clear]: the destructors of the elements are run, the storage is
    kept. *)
Definition Clear (a : ArrayList) : ArrayList := set_numElements a 0.

(** The destructor: the destructors of the elements are run, the block is
    given back and the fields are reset. *)
Definition destroy (a : ArrayList) (al : A) : ArrayList * A :=
  (mkArrayList nullptr [] 0 0, Free al (pData a)).

(** [Assign(pT, length)]: [pT] is [None] for a null pointer and [Some src]
    for a pointer to the elements [src]; the length of the [memcpy] is a
    product of two [uint32_t]. *)
Definition Assign (a : ArrayList) (al : A) (pT : option (list T)) (length : Z)
  : outcome (bool * ArrayList * A) :=
  let '(a0, al0) := if negb (is_null (pData a)) then destroy a al else (a, al) in
  match Expand a0 al0 length with
  | Done (true, a1, al1) =>
      match copy_bytes (storage a1) (index (pData a1))
              (match pT with Some src => Some <$> src | None => [] end) 0
              (wrap32 (length * Z.pos TSize)) with
      | Some s => Done (true, mkArrayList (pData a1) s length (capacity a1), al1)
      | None => Undefined
      end
  | Done (false, a1, al1) => Done (false, a1, al1)
  | Undefined => Undefined
  | OutOfFuel => OutOfFuel
  end.

Definition ByteWidth (a : ArrayList) : Z := wrap32 (Size a * ElemSize).

(** [operator[](idx)]: the slot of [pData[idx]], [None] when nothing was
    ever written to it.  The source checks no bound. *)
Definition subscript (a : ArrayList) (idx : Z) : outcome slot :=
  let i := index (ptr_add (pData a) idx) in
  if (0 <=? i) && (i <? len (storage a)) then
    match storage a !! Z.to_nat i with
    | Some x => Done x
    | None => Undefined
    end
  else Undefined.

(** *** The states the calls leave *)

(** The state [Expand] leaves when it succeeds. *)
Definition expanded (a : ArrayList) (b : positive) (newCapacity : Z) : ArrayList :=
  mkArrayList (Ptr (Z.pos b) 0)
    (elements a
     ++ replicate (Z.to_nat (wrap32 (newCapacity * Z.pos TSize) / Z.pos TSize
                             - numElements a)) None)
    (numElements a) newCapacity.

(** The storage [Insert] leaves when the elements fit: the [memmove] of the
    tail, then the [memcpy] of the source. *)
Definition inserted (s : list slot) (count position : Z) (src : list T) (num : Z)
  : list slot :=
  let s1 := take (Z.to_nat (position + num)) s
            ++ take (Z.to_nat (count - position)) (drop (Z.to_nat position) s)
            ++ drop (Z.to_nat (count + num)) s in
  take (Z.to_nat position) s1
  ++ take (Z.to_nat num) (drop (Z.to_nat 0) (Some <$> src))
  ++ drop (Z.to_nat (position + num)) s1.

(** The storage the [memmove] of [Insert] leaves: the elements from
    [position] on are moved [num] slots to the right. *)
Definition shifted (s : list slot) (count position num : Z) : list slot :=
  take (Z.to_nat (position + num)) s
  ++ take (Z.to_nat (count - position)) (drop (Z.to_nat position) s)
  ++ drop (Z.to_nat (count + num)) s.

(** The storage [Insert] leaves when the elements fit and the source is
    the slot [i] of the storage itself: the [memcpy] reads what the
    [memmove] left. *)
Definition inserted_inside (s : list slot) (count position i num : Z)
  : list slot :=
  let s1 := shifted s count position num in
  take (Z.to_nat position) s1
  ++ take (Z.to_nat num) (drop (Z.to_nat i) s1)
  ++ drop (Z.to_nat (position + num)) s1.

(** *** Consistent states *)

(** What every constructor establishes and every call keeps: the count
    lies within the block, the block is no larger than the capacity says,
    its size in bytes fits 32 bits, and [pData] is the start of the block
    (null only when the block is empty). *)
Definition inv (a : ArrayList) : Prop :=
  0 <= numElements a <= len (storage a)
  /\ len (storage a) <= capacity a < 2 ^ 32
  /\ len (storage a) * Z.pos TSize < 2 ^ 32
  /\ index (pData a) = 0
  /\ (0 < len (storage a) -> block (pData a) <> 0).

(** A consistent state whose block has exactly [capacity] slots. *)
Definition well_formed (a : ArrayList) : Prop :=
  inv a /\ len (storage a) = capacity a.

(** *** Sequences of calls *)

Inductive op : Type :=
| OpAdd (t : T)
| OpInsert (position : Z) (pSrc : option source) (num : Z)
| OpErase (position num : Z).

Definition uint32 (z : Z) : Prop := 0 <= z < 2 ^ 32.

(** The arguments of a call are values of [uint32_t]. *)
Definition op_args (o : op) : Prop :=
  match o with
  | OpAdd _ => True
  | OpInsert position _ num => uint32 position /\ uint32 num
  | OpErase position num => uint32 position /\ uint32 num
  end.

(** A call together with the number of elements it reports to have added
    (negative: erased): [Add] reports with [true], [Insert] and [Erase]
    with a pointer that is not null. *)
Definition apply (o : op) (a : ArrayList) (al : A) : outcome (Z * ArrayList * A) :=
  match o with
  | OpAdd t =>
      match Add a al t with
      | Done (ok, a1, al1) => Done (if ok then 1 else 0, a1, al1)
      | Undefined => Undefined
      | OutOfFuel => OutOfFuel
      end
  | OpInsert position pSrc num =>
      match Insert a al position pSrc num with
      | Done (p, a1, al1) => Done (if is_null p then 0 else num, a1, al1)
      | Undefined => Undefined
      | OutOfFuel => OutOfFuel
      end
  | OpErase position num =>
      match Erase a position num with
      | Done (p, a1) => Done (if is_null p then 0 else - num, a1, al)
      | Undefined => Undefined
      | OutOfFuel => OutOfFuel
      end
  end.

(** The states after each call of a sequence, each with the number of
    elements its call added. *)
Fixpoint run (ops : list op) (a : ArrayList) (al : A)
  : outcome (list (Z * ArrayList) * A) :=
  match ops with
  | [] => Done ([], al)
  | o :: ops' =>
      match apply o a al with
      | Done (gain, a1, al1) =>
          match run ops' a1 al1 with
          | Done (tr, al2) => Done ((gain, a1) :: tr, al2)
          | Undefined => Undefined
          | OutOfFuel => OutOfFuel
          end
      | Undefined => Undefined
      | OutOfFuel => OutOfFuel
      end
  end.

(** The states a sequence goes through, the first one included, and the
    number of elements its calls added in total. *)
Definition states (a : ArrayList) (tr : list (Z * ArrayList)) : list ArrayList :=
  a :: map snd tr.

Definition net (tr : list (Z * ArrayList)) : Z :=
  fold_right Z.add 0 (map fst tr).

End ArrayList.

Arguments mkArrayList {T} pData storage numElements capacity.
Arguments pData {T} a.
Arguments storage {T} a.
Arguments numElements {T} a.
Arguments capacity {T} a.
Arguments elements {T} a.
Arguments empty {T}.
Arguments Outside {T} src.
Arguments Inside {T} i.
Arguments Stale {T}.

End ArrayList.

(** ** mj::ArrayListView *)

Module ArrayListView.

Section ArrayListView.

(** [TSize = sizeof(T)] for the element type [T] of the view. *)
Variable TSize : positive.

Record ArrayListView : Type := mkArrayListView {
  pData : pointer;
  numElements : Z
}.

(** The view of a fixed array [T (&data)[Size]]. *)
Definition of_array (data : pointer) (Size : Z) : ArrayListView :=
  mkArrayListView data Size.

(** [ArrayListView(T* pData, uint32_t numElements)] *)
Definition of_pointer (pData : pointer) (numElements : Z) : ArrayListView :=
  mkArrayListView pData numElements.

(** [ArrayListView(ArrayList<U>& c)], the view that [ToView<T>()] returns:
    [USize = sizeof(U)].  The product is computed in [size_t] and the
    quotient is narrowed to [uint32_t]. *)
Definition of_ArrayList {U : Type} (USize : positive) (c : ArrayList.ArrayList U)
  : ArrayListView :=
  mkArrayListView (ArrayList.pData c)
    (wrap32 (wrap64 (ArrayList.numElements c * Z.pos USize) / Z.pos TSize)).

Definition Size (v : ArrayListView) : Z := numElements v.
Definition ElemSize : Z := Z.pos TSize.
Definition ByteWidth (v : ArrayListView) : Z := wrap32 (Size v * ElemSize).
Definition Get (v : ArrayListView) : pointer := pData v.
Definition begin (v : ArrayListView) : pointer := pData v.
Definition end_ (v : ArrayListView) : pointer := ptr_add (pData v) (Size v).

End ArrayListView.

(** [operator mj::ArrayListView<T>()] of [ArrayList<T>] *)
Definition of_same {T : Type} (c : ArrayList.ArrayList T) : ArrayListView :=
  of_pointer (ArrayList.pData c) (ArrayList.numElements c).

End ArrayListView.

(** ** minmax and swap *)

Module Common.

Section Common.

(** The type [T] and its [operator<]. *)
Variable T : Type.
Variable ltb : T -> T -> bool.

(** [minmax(a, b, outMin, outMax)]: the result, then [outMin] and
    [outMax]. *)
Definition minmax (a b : T) : bool * T * T :=
  if ltb a b then (true, a, b) else (false, b, a).

(** [swap(a, b)]: [a] and [b] after the call. *)
Definition swap (a b : T) : T * T :=
  let c := a in
  let a := b in
  let b := c in
  (a, b).

End Common.

End Common.

(** Sample arrays of 4-byte integers: what three and four calls of [Add]
    build from the empty array. *)
Module Samples.

Definition three : ArrayList.ArrayList Z :=
  ArrayList.mkArrayList (Ptr 1 0) [Some 10; Some 20; Some 30; None] 3 4.

Definition full : ArrayList.ArrayList Z :=
  ArrayList.mkArrayList (Ptr 1 0) [Some 10; Some 20; Some 30; Some 40] 4 4.

(** A sequence of calls on the empty array, [Add(10)], [Insert(0, {7, 8}, 2)]
    and [Erase(1, 1)], and the states it goes through. *)
Definition calls : list (ArrayList.op Z) :=
  [ArrayList.OpAdd Z 10; ArrayList.OpInsert Z 0 (Some (ArrayList.Outside [7; 8])) 2;
   ArrayList.OpErase Z 1 1].

Definition trace : list (Z * ArrayList.ArrayList Z) :=
  [(1, ArrayList.mkArrayList (Ptr 1 0) [Some 10; None; None; None] 1 4);
   (2, ArrayList.mkArrayList (Ptr 1 0) [Some 7; Some 8; Some 10; None] 3 4);
   (-1, ArrayList.mkArrayList (Ptr 1 0) [Some 7; Some 10; Some 10; None] 2 4)].

End Samples.

(** ** mj::MemoryBuffer *)

Module MemoryBuffer.

(** The cursor holds two [char*]: byte addresses, [0] for the null
    pointer.  The bytes it reads and writes belong to its caller: the
    memory is an argument and a result of the functions that use it.  An
    object of type [T] is the list of the [sizeof(T)] bytes that represent
    it. *)
Definition memory : Type := Z -> byte.

(** [memcpy(p, bs, length bs)] *)
Fixpoint store (m : memory) (p : Z) (bs : list byte) : memory :=
  match bs with
  | [] => m
  | b :: bs' => store (fun a => if a =? p then b else m a) (p + 1) bs'
  end.

(** The [n] bytes at [p]: what [memcpy(&t, p, n)] leaves in [t]. *)
Definition load (m : memory) (p : Z) (n : nat) : list byte :=
  map (fun i => m (p + Z.of_nat i)) (seq 0 n).

Record MemoryBuffer : Type := mkMemoryBuffer { end_ : Z; position : Z }.

(** [MemoryBuffer()] *)
Definition default : MemoryBuffer := mkMemoryBuffer 0 0.

(** [MemoryBuffer(void* pBegin, void* end)] *)
Definition of_range (pBegin pEnd : Z) : MemoryBuffer := mkMemoryBuffer pEnd pBegin.

(** [MemoryBuffer(void* pBegin, size_t size)] *)
Definition of_size (pBegin size : Z) : MemoryBuffer :=
  mkMemoryBuffer (wrap64 (pBegin + size)) pBegin.

Definition Position (c : MemoryBuffer) : Z := position c.

Definition SizeLeft (c : MemoryBuffer) : Z := wrap64 (end_ c - position c).

(** [this->end = nullptr; this->position = nullptr;] *)
Definition poisoned : MemoryBuffer := mkMemoryBuffer 0 0.

(** [this->position += n;] *)
Definition advance (c : MemoryBuffer) (n : Z) : MemoryBuffer :=
  mkMemoryBuffer (end_ c) (wrap64 (position c + n)).

Definition Good (c : MemoryBuffer) : bool :=
  negb (end_ c =? 0) && negb (position c =? 0).

(** [Read(T& t)]: [t] is the object before the call, the result is the
    object after it. *)
Definition Read (c : MemoryBuffer) (m : memory) (t : list byte)
  : list byte * MemoryBuffer :=
  let sizeofT := Z.of_nat (length t) in
  if SizeLeft c >=? sizeofT
  then (load m (position c) (length t), advance c sizeofT)
  else (t, poisoned).

(** [operator>>(T& t)] *)
Definition extract (c : MemoryBuffer) (m : memory) (t : list byte)
  : list byte * MemoryBuffer :=
  let sizeofT := Z.of_nat (length t) in
  if SizeLeft c >=? sizeofT
  then (load m (position c) (length t), advance c sizeofT)
  else (t, poisoned).

(** [Write(T& t)] *)
Definition Write (c : MemoryBuffer) (m : memory) (t : list byte)
  : memory * MemoryBuffer :=
  let sizeofT := Z.of_nat (length t) in
  if SizeLeft c >=? sizeofT
  then (store m (position c) t, advance c sizeofT)
  else (m, poisoned).

(** [Write(void* pData, size_t size)]: [data] is the [size] bytes at
    [pData]. *)
Definition WriteBytes (c : MemoryBuffer) (m : memory) (data : list byte)
  : memory * MemoryBuffer :=
  let size := Z.of_nat (length data) in
  if SizeLeft c >=? size
  then (store m (position c) data, advance c size)
  else (m, poisoned).

Definition Skip (c : MemoryBuffer) (numBytes : N) : MemoryBuffer :=
  if SizeLeft c >=? Z.of_N numBytes
  then advance c (Z.of_N numBytes)
  else poisoned.

(** [ReserveArrayUnaligned<T>(numElements)]; the product is a product of
    two [size_t]. *)
Definition ReserveArrayUnaligned (c : MemoryBuffer) (sizeofT numElements : N)
  : Z * MemoryBuffer :=
  let bytes := wrap64 (Z.of_N numElements * Z.of_N sizeofT) in
  if SizeLeft c >=? bytes
  then (position c, advance c bytes)
  else (0, poisoned).

(** [NewUnaligned<T>(args...)]: [obj] is the object that [T(args...)]
    constructs. *)
Definition NewUnaligned (c : MemoryBuffer) (m : memory) (obj : list byte)
  : Z * memory * MemoryBuffer :=
  let sizeofT := Z.of_nat (length obj) in
  if SizeLeft c >=? sizeofT
  then (position c, store m (position c) obj, advance c sizeofT)
  else (0, m, poisoned).

(** The loop of [NewArrayUnaligned]: [new (t + i) T()] for [k] objects
    from the address [p] on, [obj] being the object that [T()]
    constructs.  The bytes between [lo] and [hi] are the ones the cursor
    was given; constructing an object elsewhere has no defined result. *)
Fixpoint construct (m : memory) (lo hi p : Z) (obj : list byte) (k : nat)
  : option memory :=
  match k with
  | O => Some m
  | S k' =>
      if (lo <=? p) && (p + Z.of_nat (length obj) <=? hi)
      then construct (store m p obj) lo hi (p + Z.of_nat (length obj)) obj k'
      else None
  end.

(** [NewArrayUnaligned<T>(numElements)]: the product that is compared is a
    product of two [size_t]; the loop runs [numElements] times. *)
Definition NewArrayUnaligned (c : MemoryBuffer) (m : memory) (obj : list byte)
    (numElements : N) : outcome (Z * memory * MemoryBuffer) :=
  let bytes := wrap64 (Z.of_N numElements * Z.of_nat (length obj)) in
  if SizeLeft c >=? bytes
  then
    match construct m (position c) (end_ c) (position c) obj
            (N.to_nat numElements) with
    | Some m' => Done (position c, m', advance c bytes)
    | None => Undefined
    end
  else Done (0, m, poisoned).

(** A cursor whose position lies inside its range. *)
Definition in_range (c : MemoryBuffer) : Prop :=
  0 < position c <= end_ c /\ end_ c < 2 ^ 64.

(** *** Sequences of operations

    The operations of the specification: [Read] (and [operator>>]),
    [Write] of a value and of bytes, [Skip], [ReserveArrayUnaligned] and
    [NewUnaligned]. *)

Inductive op : Type :=
| OpRead (t : list byte)
| OpExtract (t : list byte)
| OpWrite (t : list byte)
| OpWriteBytes (data : list byte)
| OpSkip (numBytes : N)
| OpReserveArray (sizeofT numElements : N)
| OpNew (obj : list byte).

(** What a call hands back to its caller besides the cursor: the object
    read into, or the pointer returned. *)
Inductive result : Type :=
| RObject (t : list byte)
| RNothing
| RPointer (p : Z).

Definition state : Type := MemoryBuffer * memory.

Definition step (o : op) (st : state) : result * state :=
  let '(c, m) := st in
  match o with
  | OpRead t => let '(t', c') := Read c m t in (RObject t', (c', m))
  | OpExtract t => let '(t', c') := extract c m t in (RObject t', (c', m))
  | OpWrite t => let '(m', c') := Write c m t in (RNothing, (c', m'))
  | OpWriteBytes data => let '(m', c') := WriteBytes c m data in (RNothing, (c', m'))
  | OpSkip n => (RNothing, (Skip c n, m))
  | OpReserveArray sz n =>
      let '(p, c') := ReserveArrayUnaligned c sz n in (RPointer p, (c', m))
  | OpNew obj => let '(p, m', c') := NewUnaligned c m obj in (RPointer p, (c', m'))
  end.

Fixpoint run (ops : list op) (st : state) : list result * state :=
  match ops with
  | [] => ([], st)
  | o :: ops' =>
      let '(r, st1) := step o st in
      let '(rs, st2) := run ops' st1 in
      (r :: rs, st2)
  end.

(** The number of bytes a call asks for: [sizeof(T)] for an object of
    type [T], and [numElements] times [sizeof(T)] for an array. *)
Definition required (o : op) : Z :=
  match o with
  | OpRead t | OpExtract t | OpWrite t => Z.of_nat (length t)
  | OpWriteBytes data => Z.of_nat (length data)
  | OpSkip n => Z.of_N n
  | OpReserveArray sz n => Z.of_N n * Z.of_N sz
  | OpNew obj => Z.of_nat (length obj)
  end.

(** The number a call compares [SizeLeft()] with and moves the position
    by: the number of bytes it asks for as the call computes it, the
    product for an array in [size_t]. *)
Definition compared (o : op) : Z :=
  match o with
  | OpRead t | OpExtract t | OpWrite t => Z.of_nat (length t)
  | OpWriteBytes data => Z.of_nat (length data)
  | OpSkip n => Z.of_N n
  | OpReserveArray sz n => wrap64 (Z.of_N n * Z.of_N sz)
  | OpNew obj => Z.of_nat (length obj)
  end.

(** What a call that succeeds does to the memory, and what it hands
    back. *)
Definition effect (o : op) (c : MemoryBuffer) (m : memory) : result * memory :=
  match o with
  | OpRead t | OpExtract t => (RObject (load m (position c) (length t)), m)
  | OpWrite t => (RNothing, store m (position c) t)
  | OpWriteBytes data => (RNothing, store m (position c) data)
  | OpSkip _ => (RNothing, m)
  | OpReserveArray _ _ => (RPointer (position c), m)
  | OpNew obj => (RPointer (position c), store m (position c) obj)
  end.

(** What a call that fails hands back: the object untouched, or a null
    pointer. *)
Definition refusal (o : op) : result :=
  match o with
  | OpRead t | OpExtract t => RObject t
  | OpWrite _ | OpWriteBytes _ | OpSkip _ => RNothing
  | OpReserveArray _ _ | OpNew _ => RPointer 0
  end.

(** The number of bytes a sequence of calls asks for. *)
Definition total (ops : list op) : Z :=
  foldr (fun o n => required o + n) 0 ops.

(** A pointer that a call hands back is null or points into the range
    of [c]. *)
Definition points_into (c : MemoryBuffer) (r : result) : Prop :=
  match r with
  | RPointer p => p = 0 \/ position c <= p <= end_ c
  | _ => True
  end.

End MemoryBuffer.

(** * Properties *)

(** ** Machine integers and pointers *)

Lemma wrap32_range z : 0 <= wrap32 z < 2 ^ 32.
Proof. unfold wrap32. apply Z.mod_pos_bound. lia. Qed.

Lemma wrap32_small z : 0 <= z < 2 ^ 32 -> wrap32 z = z.
Proof. intros Hz. unfold wrap32. apply Z.mod_small. exact Hz. Qed.

Lemma wrap32_le z : 0 <= z -> wrap32 z <= z.
Proof. intros Hz. unfold wrap32. apply Z.mod_le; lia. Qed.

Lemma wrap64_range z : 0 <= wrap64 z < 2 ^ 64.
Proof. unfold wrap64. apply Z.mod_pos_bound. lia. Qed.

Lemma wrap64_small z : 0 <= z < 2 ^ 64 -> wrap64 z = z.
Proof. intros Hz. unfold wrap64. apply Z.mod_small. exact Hz. Qed.

Lemma is_null_true p : is_null p = true <-> p = nullptr.
Proof.
  destruct p as [b i]. unfold is_null, nullptr. simpl. split.
  - intros Hn. apply andb_true_iff in Hn as [Hb Hi].
    apply Z.eqb_eq in Hb, Hi. congruence.
  - intros Hn. injection Hn as -> ->. reflexivity.
Qed.

Lemma is_null_false p : is_null p = false <-> p <> nullptr.
Proof.
  rewrite <- is_null_true. destruct (is_null p); split; congruence.
Qed.

(** ** Lists read by index *)

Ltac list_len :=
  repeat first
    [ rewrite length_app
    | rewrite length_take_le by (list_len; lia)
    | rewrite length_take_ge by (list_len; lia)
    | rewrite length_drop
    | rewrite length_fmap | rewrite length_replicate | rewrite length_insert ].

(** Normalises a look-up in a list built with [++], [take], [drop] and
    [<$>] once the index is known to fall in one of the pieces, and closes
    the goal when both sides become the same look-up. *)
Ltac lookup_step :=
  match goal with
  | |- context [ lookup ?i (?l1 ++ ?l2) ] =>
      first [ rewrite (lookup_app_l l1 l2 i) by (list_len; lia)
            | rewrite (lookup_app_r l1 l2 i) by (list_len; lia) ]
  | |- context [ lookup ?i (take ?n ?l) ] =>
      first [ rewrite (lookup_take_lt l n i) by lia
            | rewrite (lookup_take_ge l n i) by lia ]
  | |- context [ lookup ?i (drop ?n ?l) ] => rewrite (lookup_drop l n i)
  | |- context [ lookup ?i (fmap ?f ?l) ] => rewrite (list_lookup_fmap f l i)
  | |- context [ lookup ?i (replicate ?n ?x) ] =>
      rewrite (lookup_replicate_2 n x i) by lia
  | |- context [ lookup ?i ?l ] =>
      rewrite (lookup_ge_None_2 l i) by (list_len; lia)
  end.

Ltac lookup_norm :=
  repeat first [lookup_step | progress list_len];
  first [ f_equal; lia | f_equal; f_equal; lia | idtac ].

(** What [Erase] and [Insert] do to the first [c] slots of a block. *)
Section Segments.
Context {X : Type}.
Implicit Types (s src : list X) (c p n i : nat).

Lemma erase_segments s c p n :
  (1 <= n -> p + n < c -> c + n - 1 <= length s ->
  take (c - n) (take p s ++ take (c - p - 1) (drop (p + n) s) ++ drop (c - 1) s)
  = take p (take c s) ++ drop (p + n) (take c s))%nat.
Proof.
  intros Hn Hlt Hin. apply list_eq. intros i.
  destruct (decide (i < p)%nat).
  { lookup_norm. }
  destruct (decide (i < c - n)%nat).
  { lookup_norm. }
  lookup_norm.
Qed.

Lemma insert_segments s src c p n :
  (p <= c -> c + n <= length s -> n <= length src ->
  let s1 := take (p + n) s ++ take (c - p) (drop p s) ++ drop (c + n) s in
  take (c + n) (take p s1 ++ take n src ++ drop (p + n) s1)
  = take p (take c s) ++ take n src ++ drop p (take c s))%nat.
Proof.
  intros Hp Hfit Hsrc s1. subst s1. apply list_eq. intros i.
  destruct (decide (i < p)%nat).
  { lookup_norm. }
  destruct (decide (i < p + n)%nat).
  { lookup_norm. }
  destruct (decide (i < c + n)%nat).
  { lookup_norm. }
  lookup_norm.
Qed.
End Segments.

(** ** mj::ArrayList *)

Module ArrayListFacts.
Import ArrayList.

Section Facts.

Context {A : Type} `{Allocator A}.
Variable T : Type.
Variable TSize : positive.

Local Abbreviation len l := (Z.of_nat (length l)) (only parsing).
Local Abbreviation copy_bytes := (copy_bytes T TSize).
Local Abbreviation Expand := (Expand T TSize).
Local Abbreviation Double := (Double T TSize).
Local Abbreviation Reserve := (Reserve T TSize).
Local Abbreviation Insert := (Insert T TSize).
Local Abbreviation Erase := (Erase T TSize).
Local Abbreviation Add := (Add T TSize).
Local Abbreviation inv := (inv T TSize).
Local Abbreviation well_formed := (well_formed T TSize).
Local Abbreviation inserted := (inserted T).
Local Abbreviation expanded := (expanded T TSize).

Lemma copy_bytes_Some to dst from src bytes s :
  copy_bytes to dst from src bytes = Some s ->
  exists n,
    bytes = n * Z.pos TSize /\ 0 <= n /\
    0 <= src /\ src + n <= len from /\ 0 <= dst /\ dst + n <= len to /\
    s = take (Z.to_nat dst) to
        ++ take (Z.to_nat n) (drop (Z.to_nat src) from)
        ++ drop (Z.to_nat (dst + n)) to.
Proof.
  unfold ArrayList.copy_bytes. intros Hc.
  destruct (_ && _) eqn:E in Hc; [|discriminate].
  injection Hc as <-.
  exists (bytes / Z.pos TSize).
  assert (Hm : bytes mod Z.pos TSize = 0) by lia.
  pose proof (Z.div_mod bytes (Z.pos TSize) ltac:(lia)) as Hd.
  repeat split; try lia.
Qed.

Lemma copy_bytes_elements to dst from src n :
  0 <= n -> 0 <= src -> src + n <= len from -> 0 <= dst -> dst + n <= len to ->
  copy_bytes to dst from src (n * Z.pos TSize)
  = Some (take (Z.to_nat dst) to
          ++ take (Z.to_nat n) (drop (Z.to_nat src) from)
          ++ drop (Z.to_nat (dst + n)) to).
Proof.
  intros Hn Hs Hsn Hd Hdn. unfold ArrayList.copy_bytes.
  rewrite Z.mod_mul by lia. rewrite Z.div_mul by lia.
  destruct (_ && _) eqn:E; [reflexivity | lia].
Qed.

Lemma copy_bytes_length to dst from src bytes s :
  copy_bytes to dst from src bytes = Some s -> length s = length to.
Proof.
  intros Hc. apply copy_bytes_Some in Hc as (n & _ & Hn & Hs & Hsn & Hd & Hdn & ->).
  rewrite !length_app, !length_take, !length_drop. lia.
Qed.

(** *** Growth *)

Lemma slots_of_bytes (newCapacity : Z) :
  0 <= newCapacity ->
  0 <= wrap32 (newCapacity * Z.pos TSize) / Z.pos TSize <= newCapacity
  /\ wrap32 (newCapacity * Z.pos TSize) / Z.pos TSize * Z.pos TSize < 2 ^ 32.
Proof.
  intros Hc.
  pose proof (wrap32_range (newCapacity * Z.pos TSize)) as Hr.
  pose proof (wrap32_le (newCapacity * Z.pos TSize) ltac:(nia)) as Hle.
  pose proof (Z.mul_div_le (wrap32 (newCapacity * Z.pos TSize)) (Z.pos TSize) ltac:(lia)).
  pose proof (Z.div_pos (wrap32 (newCapacity * Z.pos TSize)) (Z.pos TSize) ltac:(lia) ltac:(lia)).
  nia.
Qed.

Lemma slots_of_bytes_exact (newCapacity : Z) :
  0 <= newCapacity -> newCapacity * Z.pos TSize < 2 ^ 32 ->
  wrap32 (newCapacity * Z.pos TSize) / Z.pos TSize = newCapacity.
Proof.
  intros Hc Hb. rewrite wrap32_small by nia. apply Z.div_mul. lia.
Qed.

Lemma Expand_failure a al newCapacity :
  fst (Allocate al (wrap32 (newCapacity * Z.pos TSize))) = None ->
  Expand a al newCapacity
  = Done (false, a, snd (Allocate al (wrap32 (newCapacity * Z.pos TSize)))).
Proof.
  unfold ArrayList.Expand, ElemSize.
  destruct (Allocate al _) as [r al1]. simpl. intros ->. reflexivity.
Qed.

Lemma Expand_success a al newCapacity b al1 :
  Allocate al (wrap32 (newCapacity * Z.pos TSize)) = (Some b, al1) ->
  0 <= numElements a <= len (storage a) ->
  numElements a <= wrap32 (newCapacity * Z.pos TSize) / Z.pos TSize ->
  Expand a al newCapacity
  = Done (true,
          expanded a b newCapacity, Free al1 (pData a)).
Proof.
  intros Hal Hn Hfit. unfold ArrayList.Expand, ElemSize. rewrite Hal. simpl.
  rewrite copy_bytes_elements by (rewrite ?length_replicate; lia).
  simpl. rewrite drop_replicate. unfold ArrayList.expanded, elements.
  repeat f_equal. lia.
Qed.

Lemma Expand_inversion a al newCapacity ok a1 al1 :
  Expand a al newCapacity = Done (ok, a1, al1) ->
  (ok = false /\ a1 = a
   /\ Allocate al (wrap32 (newCapacity * Z.pos TSize)) = (None, al1))
  \/ (ok = true
      /\ 0 <= numElements a <= len (storage a)
      /\ numElements a <= wrap32 (newCapacity * Z.pos TSize) / Z.pos TSize
      /\ exists b al0,
           Allocate al (wrap32 (newCapacity * Z.pos TSize)) = (Some b, al0)
           /\ al1 = Free al0 (pData a)
           /\ a1 = expanded a b newCapacity).
Proof.
  intros He.
  destruct (Allocate al (wrap32 (newCapacity * Z.pos TSize))) as [[b|] al0] eqn:Hal.
  - right.
    assert (Hin : 0 <= numElements a <= len (storage a)
                  /\ numElements a <= wrap32 (newCapacity * Z.pos TSize) / Z.pos TSize).
    { unfold ArrayList.Expand, ElemSize in He. rewrite Hal in He. simpl in He.
      destruct (ArrayList.copy_bytes _ _ _ _ _ _ _) as [s|] eqn:Hc in He; [|discriminate].
      apply copy_bytes_Some in Hc as (n & Hb & Hn & _ & Hsn & _ & Hdn & _).
      rewrite length_replicate in Hdn.
      assert (n = numElements a) by nia. subst n.
      pose proof (Z.div_pos (wrap32 (newCapacity * Z.pos TSize)) (Z.pos TSize)
                    ltac:(pose proof (wrap32_range (newCapacity * Z.pos TSize)); lia) ltac:(lia)).
      lia. }
    destruct Hin as [Hn Hfit].
    rewrite (Expand_success _ _ _ _ _ Hal Hn Hfit) in He.
    injection He as <- <- <-. eauto 10.
  - left. rewrite Expand_failure in He by (rewrite Hal; reflexivity).
    rewrite Hal in He. simpl in He. injection He as <- <- <-. auto.
Qed.

Lemma length_elements (a : ArrayList T) :
  0 <= numElements a <= len (storage a) -> len (elements a) = numElements a.
Proof. intros Hn. unfold elements. rewrite length_take. lia. Qed.

Lemma Expand_inv a al newCapacity a1 al1 :
  inv a -> 0 <= newCapacity < 2 ^ 32 ->
  Expand a al newCapacity = Done (true, a1, al1) ->
  inv a1 /\ numElements a1 = numElements a /\ capacity a1 = newCapacity
  /\ elements a1 = elements a
  /\ len (storage a1) = wrap32 (newCapacity * Z.pos TSize) / Z.pos TSize.
Proof.
  intros (Hn & Hl & Hb & Hi & Hp) Hc He.
  apply Expand_inversion in He as [(? & _) | (_ & _ & Hfit & b & al0 & _ & _ & ->)];
    [discriminate|].
  pose proof (slots_of_bytes newCapacity ltac:(lia)) as [Hs1 Hs2].
  pose proof (length_elements a Hn) as Hle.
  assert (Hlen : len (elements a ++ replicate (Z.to_nat
                   (wrap32 (newCapacity * Z.pos TSize) / Z.pos TSize - numElements a)) None)
                 = wrap32 (newCapacity * Z.pos TSize) / Z.pos TSize).
  { rewrite length_app, length_replicate. lia. }
  unfold inv. simpl. rewrite Hlen. repeat split; try lia.
  unfold elements at 1. simpl.
  rewrite take_app_length'; [reflexivity | lia].
Qed.

(** *** Reserve *)

Lemma Reserve_zero a al : Reserve a al 0 = Done (nullptr, a, al).
Proof. reflexivity. Qed.

Lemma Reserve_fits a al num :
  num <> 0 -> wrap32 (numElements a + num) <= capacity a ->
  Reserve a al num
  = Done (ptr_add (pData a) (numElements a),
          set_numElements T a (wrap32 (numElements a + num)), al).
Proof.
  intros Hnum Hfit. unfold ArrayList.Reserve. simpl.
  destruct (Z.eqb_spec num 0) as [|_]; [contradiction|].
  destruct (Z.leb_spec (wrap32 (numElements a + num)) (capacity a)); [reflexivity | lia].
Qed.

Lemma Reserve_growth_fails a al num :
  num <> 0 -> capacity a < wrap32 (numElements a + num) ->
  fst (Allocate al (wrap32 (wrap32 (numElements a + num) * Z.pos TSize))) = None ->
  Reserve a al num
  = Done (nullptr, a,
          snd (Allocate al (wrap32 (wrap32 (numElements a + num) * Z.pos TSize)))).
Proof.
  intros Hnum Hgrow Hal. unfold ArrayList.Reserve. simpl.
  destruct (Z.eqb_spec num 0) as [|_]; [contradiction|].
  destruct (Z.leb_spec (wrap32 (numElements a + num)) (capacity a)); [lia|].
  rewrite Expand_failure by exact Hal. reflexivity.
Qed.

Lemma Reserve_growth a al num b al1 :
  num <> 0 -> capacity a < wrap32 (numElements a + num) ->
  Allocate al (wrap32 (wrap32 (numElements a + num) * Z.pos TSize)) = (Some b, al1) ->
  0 <= numElements a <= len (storage a) ->
  numElements a
  <= wrap32 (wrap32 (numElements a + num) * Z.pos TSize) / Z.pos TSize ->
  Reserve a al num
  = Done (Ptr (Z.pos b) (numElements a),
          mkArrayList (Ptr (Z.pos b) 0)
            (elements a
             ++ replicate
                  (Z.to_nat (wrap32 (wrap32 (numElements a + num) * Z.pos TSize)
                             / Z.pos TSize - numElements a)) None)
            (wrap32 (numElements a + num)) (wrap32 (numElements a + num)),
          Free al1 (pData a)).
Proof.
  intros Hnum Hgrow Hal Hn Hfit. unfold ArrayList.Reserve. simpl.
  destruct (Z.eqb_spec num 0) as [|_]; [contradiction|].
  destruct (Z.leb_spec (wrap32 (numElements a + num)) (capacity a)); [lia|].
  rewrite (Expand_success _ _ _ _ _ Hal Hn Hfit). simpl.
  rewrite Z.leb_refl. reflexivity.
Qed.

(** One nested call is enough, whatever the state. *)
Lemma Reserve_total d a al num :
  ArrayList.Reserve_rec T TSize (S d) a al num = Reserve a al num
  /\ Reserve a al num <> OutOfFuel.
Proof.
  unfold ArrayList.Reserve. simpl.
  destruct (num =? 0) eqn:Hz; [split; [reflexivity | discriminate]|].
  destruct (wrap32 (numElements a + num) <=? capacity a);
    [split; [reflexivity | discriminate]|].
  destruct (Expand a al (wrap32 (numElements a + num))) as [[[[] a1] al1]| |] eqn:He;
    try (split; [reflexivity | discriminate]).
  - apply Expand_inversion in He as [(? & _) | (_ & _ & _ & b & al0 & _ & _ & ->)];
      [discriminate|].
    destruct d; simpl; rewrite ?Hz; simpl; rewrite ?Z.leb_refl;
      (split; [reflexivity | discriminate]).
  - exfalso. unfold ArrayList.Expand in He.
    destruct (Allocate al _) as [r al0]. destruct (negb _); [|discriminate].
    destruct (ArrayList.copy_bytes _ _ _ _ _ _ _); discriminate.
Qed.

(** *** Erase *)

Lemma Erase_refuses a position num :
  numElements a <= position \/ numElements a <= position + num ->
  Erase a position num = Done (nullptr, a).
Proof.
  intros Hr. unfold ArrayList.Erase, ptr_ltb, end_, begin, Size, ptr_add. simpl.
  destruct (Z.ltb_spec position (numElements a)); [|reflexivity].
  destruct (Z.ltb_spec (index (pData a) + position + num)
              (index (pData a) + numElements a)); [lia | reflexivity].
Qed.

Lemma Erase_moves a position num :
  index (pData a) = 0 ->
  0 <= position -> 0 <= num -> position + num < numElements a ->
  numElements a + num - 1 <= len (storage a) ->
  Erase a position num
  = Done (ptr_add (pData a) position,
          mkArrayList (pData a)
            (take (Z.to_nat position) (storage a)
             ++ take (Z.to_nat (numElements a - position - 1))
                  (drop (Z.to_nat (position + num)) (storage a))
             ++ drop (Z.to_nat (numElements a - 1)) (storage a))
            (wrap32 (numElements a - num)) (capacity a)).
Proof.
  intros Hi Hp Hnum Hlt Hin.
  unfold ArrayList.Erase, ptr_ltb, ptr_diff, end_, begin, Size, ptr_add. simpl.
  rewrite Hi, !Z.add_0_l.
  destruct (Z.ltb_spec position (numElements a)); [|lia].
  destruct (Z.ltb_spec (position + num) (numElements a)); [|lia].
  rewrite copy_bytes_elements by lia.
  repeat f_equal; lia.
Qed.

Lemma Erase_elements (s : list (slot T)) (count position num : Z) :
  0 <= position -> 1 <= num -> position + num < count ->
  count + num - 1 <= len s ->
  take (Z.to_nat (count - num))
    (take (Z.to_nat position) s
     ++ take (Z.to_nat (count - position - 1)) (drop (Z.to_nat (position + num)) s)
     ++ drop (Z.to_nat (count - 1)) s)
  = take (Z.to_nat position) (take (Z.to_nat count) s)
    ++ drop (Z.to_nat (position + num)) (take (Z.to_nat count) s).
Proof.
  intros Hp Hnum Hlt Hin.
  replace (Z.to_nat (count - num)) with (Z.to_nat count - Z.to_nat num)%nat by lia.
  replace (Z.to_nat (count - position - 1))
    with (Z.to_nat count - Z.to_nat position - 1)%nat by lia.
  replace (Z.to_nat (position + num))
    with (Z.to_nat position + Z.to_nat num)%nat by lia.
  replace (Z.to_nat (count - 1)) with (Z.to_nat count - 1)%nat by lia.
  apply erase_segments; lia.
Qed.

(** *** Insert *)

Lemma length_inserted s count position src num :
  0 <= position <= count -> 0 <= num -> count + num <= len s -> num <= len src ->
  length (inserted s count position src num) = length s.
Proof.
  intros Hp Hnum Hfit Hsrc. unfold inserted. simpl. list_len. lia.
Qed.

Lemma inserted_elements s count position src num :
  0 <= position <= count -> 0 <= num -> count + num <= len s -> num <= len src ->
  take (Z.to_nat (count + num)) (inserted s count position src num)
  = take (Z.to_nat position) (take (Z.to_nat count) s)
    ++ (Some <$> take (Z.to_nat num) src)
    ++ drop (Z.to_nat position) (take (Z.to_nat count) s).
Proof.
  intros Hp Hnum Hfit Hsrc. unfold inserted. rewrite drop_0, fmap_take.
  replace (Z.to_nat (count + num)) with (Z.to_nat count + Z.to_nat num)%nat by lia.
  replace (Z.to_nat (count - position))
    with (Z.to_nat count - Z.to_nat position)%nat by lia.
  replace (Z.to_nat (position + num))
    with (Z.to_nat position + Z.to_nat num)%nat by lia.
  apply (insert_segments s (Some <$> src)); rewrite ?length_fmap; lia.
Qed.

Lemma Insert_rec_fits d a al position src num :
  index (pData a) = 0 ->
  len (storage a) * Z.pos TSize < 2 ^ 32 ->
  0 <= position <= numElements a -> 1 <= num ->
  numElements a + num <= capacity a -> numElements a + num <= len (storage a) ->
  numElements a + num < 2 ^ 32 ->
  num <= len src ->
  ArrayList.Insert_rec T TSize d a al position (Some (Outside src)) num
  = Done (ptr_add (pData a) position,
          mkArrayList (pData a)
            (inserted (storage a) (numElements a) position src num)
            (numElements a + num) (capacity a),
          al).
Proof.
  intros Hi Hb Hp Hnum Hcap Hfit Hr Hsrc.
  assert (Hw : wrap32 (numElements a + num) = numElements a + num)
    by (apply wrap32_small; lia).
  assert (Hm : wrap32 (numElements a - position) = numElements a - position)
    by (apply wrap32_small; lia).
  assert (Hb1 : wrap32 ((numElements a - position) * Z.pos TSize)
                = (numElements a - position) * Z.pos TSize)
    by (apply wrap32_small; nia).
  assert (Hb2 : wrap32 (num * Z.pos TSize) = num * Z.pos TSize)
    by (apply wrap32_small; nia).
  destruct d; simpl;
    unfold end_, begin, Size, ptr_add; simpl;
    rewrite Hi, Hw, Hm, Hb1, Hb2, !Z.add_0_l;
    (destruct (Z.eqb_spec num 0); [lia|]);
    (destruct (Z.ltb_spec (numElements a) position); [lia|]);
    (destruct (Z.leb_spec (numElements a + num) (capacity a)); [|lia]);
    (rewrite copy_bytes_elements by lia);
    (rewrite copy_bytes_elements by (list_len; lia));
    unfold inserted;
    replace (numElements a + num + - (numElements a - position))
      with (position + num) by lia;
    replace (position + num + (numElements a - position))
      with (numElements a + num) by lia;
    reflexivity.
Qed.

Lemma Insert_rec_fits_bounds d a al position src num r :
  inv a -> 0 <= position <= numElements a -> 1 <= num -> num < 2 ^ 32 ->
  wrap32 (numElements a + num) <= capacity a ->
  ArrayList.Insert_rec T TSize d a al position (Some (Outside src)) num = Done r ->
  numElements a + num <= len (storage a) /\ num <= len src.
Proof.
  intros ((Hn0 & Hn) & (Hl & Hc) & Hb & Hi & Hblk) Hp Hnum Hnum32 Hfit Hr.
  assert (Hm : wrap32 (numElements a - position) = numElements a - position)
    by (apply wrap32_small; lia).
  assert (Hb1 : wrap32 ((numElements a - position) * Z.pos TSize)
                = (numElements a - position) * Z.pos TSize)
    by (apply wrap32_small; nia).
  assert (Hbody :
    match copy_bytes (storage a) (numElements a + num + - (numElements a - position))
            (storage a) position ((numElements a - position) * Z.pos TSize) with
    | Some s1 =>
        match copy_bytes s1 position (Some <$> src) 0 (wrap32 (num * Z.pos TSize)) with
        | Some s2 => True
        | None => False
        end
    | None => False
    end).
  { destruct d; simpl in Hr;
      unfold end_, begin, Size, ptr_add in Hr; simpl in Hr;
      rewrite Hi, Hm, Hb1, !Z.add_0_l in Hr;
      (destruct (Z.eqb_spec num 0); [lia|]);
      (destruct (Z.ltb_spec (numElements a) position); [lia|]);
      (destruct (Z.leb_spec (wrap32 (numElements a + num)) (capacity a)); [|lia]);
      destruct (ArrayList.copy_bytes _ _ _ _ _ _ _) as [s1|]; try discriminate;
      destruct (ArrayList.copy_bytes _ _ _ _ _ _ _) as [s2|]; try discriminate;
      exact I. }
  destruct (ArrayList.copy_bytes _ _ _ _ _ _ _) as [s1|] eqn:Hc1 in Hbody; [|contradiction].
  destruct (ArrayList.copy_bytes _ _ _ _ _ _ _) as [s2|] eqn:Hc2 in Hbody; [|contradiction].
  pose proof (copy_bytes_length _ _ _ _ _ _ Hc1) as Hlen1.
  apply copy_bytes_Some in Hc1 as (n1 & Hn1 & Hn1pos & _ & Hs1 & Hd1 & Hdn1 & _).
  apply copy_bytes_Some in Hc2 as (n2 & Hn2 & Hn2pos & _ & Hs2 & Hd2 & Hdn2 & _).
  assert (n1 = numElements a - position) by nia. subst n1.
  assert (Hfits : numElements a + num <= len (storage a)) by lia.
  split; [exact Hfits|].
  rewrite wrap32_small in Hn2 by nia.
  assert (n2 = num) by nia. subst n2.
  rewrite length_fmap in Hs2. lia.
Qed.

Lemma Insert_refuses_null a al position num :
  num <> 0 -> Insert a al position None num = Done (nullptr, a, al).
Proof.
  intros Hnum. unfold ArrayList.Insert. simpl.
  destruct (Z.eqb_spec num 0); [contradiction | reflexivity].
Qed.

Lemma Insert_refuses_position a al position (src : source T) num :
  num <> 0 -> numElements a < position ->
  Insert a al position (Some src) num = Done (nullptr, a, al).
Proof.
  intros Hnum Hp. unfold ArrayList.Insert. simpl.
  destruct (Z.eqb_spec num 0); [contradiction|].
  destruct (Z.ltb_spec (numElements a) position); [reflexivity | lia].
Qed.

Lemma Insert_nothing a al position pSrc : Insert a al position pSrc 0 = Done (end_ T a, a, al).
Proof. reflexivity. Qed.

Lemma Insert_growth_fails a al position (src : source T) num :
  num <> 0 -> position <= numElements a ->
  capacity a < wrap32 (numElements a + num) ->
  fst (Allocate al (wrap32 (wrap32 (numElements a + num) * Z.pos TSize))) = None ->
  Insert a al position (Some src) num
  = Done (nullptr, a,
          snd (Allocate al (wrap32 (wrap32 (numElements a + num) * Z.pos TSize)))).
Proof.
  intros Hnum Hp Hgrow Hal. unfold ArrayList.Insert. simpl.
  destruct (Z.eqb_spec num 0); [contradiction|].
  destruct (Z.ltb_spec (numElements a) position); [lia|].
  destruct (Z.leb_spec (wrap32 (numElements a + num)) (capacity a)); [lia|].
  rewrite Expand_failure by exact Hal. reflexivity.
Qed.

Lemma Insert_grows a al position (src : source T) num b al1 :
  num <> 0 -> position <= numElements a ->
  capacity a < wrap32 (numElements a + num) ->
  Allocate al (wrap32 (wrap32 (numElements a + num) * Z.pos TSize)) = (Some b, al1) ->
  0 <= numElements a <= len (storage a) ->
  numElements a
  <= wrap32 (wrap32 (numElements a + num) * Z.pos TSize) / Z.pos TSize ->
  Insert a al position (Some src) num
  = ArrayList.Insert_rec T TSize 0
      (expanded a b (wrap32 (numElements a + num))) (Free al1 (pData a))
      position (left_behind T (Some src)) num.
Proof.
  intros Hnum Hp Hgrow Hal Hn Hfit. unfold ArrayList.Insert.
  cbn [ArrayList.Insert_rec].
  destruct (Z.eqb_spec num 0); [contradiction|].
  destruct (Z.ltb_spec (numElements a) position); [lia|].
  destruct (Z.leb_spec (wrap32 (numElements a + num)) (capacity a)); [lia|].
  rewrite (Expand_success _ _ _ _ _ Hal Hn Hfit). reflexivity.
Qed.

Lemma Insert_rec_grow d a al position (src : source T) num :
  num <> 0 -> position <= numElements a ->
  capacity a < wrap32 (numElements a + num) ->
  ArrayList.Insert_rec T TSize (S d) a al position (Some src) num
  = match Expand a al (wrap32 (numElements a + num)) with
    | Done (true, a1, al1) =>
        ArrayList.Insert_rec T TSize d a1 al1 position (left_behind T (Some src)) num
    | Done (false, a1, al1) => Done (nullptr, a1, al1)
    | Undefined => Undefined
    | OutOfFuel => OutOfFuel
    end.
Proof.
  intros Hnum Hp Hgrow. cbn [ArrayList.Insert_rec].
  destruct (Z.eqb_spec num 0); [contradiction|].
  destruct (Z.ltb_spec (numElements a) position); [lia|].
  destruct (Z.leb_spec (wrap32 (numElements a + num)) (capacity a)); [lia|].
  reflexivity.
Qed.

Lemma Expand_defined a al newCapacity : Expand a al newCapacity <> OutOfFuel.
Proof.
  unfold ArrayList.Expand. destruct (Allocate al _) as [r al0].
  destruct (negb _); [|discriminate].
  destruct (ArrayList.copy_bytes _ _ _ _ _ _ _); discriminate.
Qed.

Lemma Insert_rec_fits_defined d a al position pSrc num :
  wrap32 (numElements a + num) <= capacity a ->
  ArrayList.Insert_rec T TSize d a al position pSrc num <> OutOfFuel.
Proof.
  intros Hfit. destruct d; simpl;
    (destruct (num =? 0); [discriminate|]);
    (destruct pSrc as [src|]; [|discriminate]);
    (destruct (numElements a <? position); [discriminate|]);
    (destruct (Z.leb_spec (wrap32 (numElements a + num)) (capacity a)); [|lia]);
    (destruct (ArrayList.copy_bytes _ _ _ _ _ _ _); [|discriminate]);
    (destruct (ArrayList.copy_in _ _ _ _ _ _); discriminate).
Qed.

(** One nested call is enough, whatever the state. *)
Lemma Insert_total a al position pSrc num :
  Insert a al position pSrc num <> OutOfFuel.
Proof.
  destruct (Z.eq_dec num 0) as [->|Hnum]; [discriminate|].
  destruct pSrc as [src|]; [|rewrite Insert_refuses_null by exact Hnum; discriminate].
  destruct (Z.lt_ge_cases (numElements a) position).
  { rewrite Insert_refuses_position by assumption. discriminate. }
  destruct (Z.le_gt_cases (wrap32 (numElements a + num)) (capacity a)).
  { apply Insert_rec_fits_defined. assumption. }
  unfold ArrayList.Insert. rewrite Insert_rec_grow by lia.
  destruct (Expand a al _) as [[[[] a1] al1]| |] eqn:He; try discriminate.
  - apply Expand_inversion in He as [(? & _) | (_ & _ & _ & b & al0 & _ & _ & ->)];
      [discriminate|].
    apply Insert_rec_fits_defined. simpl. lia.
  - exfalso. exact (Expand_defined _ _ _ He).
Qed.

(** *** Add *)

Lemma wrap32_double c : 0 < c < 2 ^ 32 -> c <= wrap32 (2 * c) -> wrap32 (2 * c) = 2 * c.
Proof.
  unfold wrap32. change (2 ^ 32) with 4294967296. intros Hc Hle.
  Z.div_mod_to_equations. lia.
Qed.

Lemma Double_eq a al :
  Double a al = Expand a al (if capacity a =? 0 then 4 else wrap32 (2 * capacity a)).
Proof. unfold ArrayList.Double. destruct (capacity a =? 0); reflexivity. Qed.

Lemma Add_rec_stores d a al t :
  numElements a < capacity a ->
  ArrayList.Add_rec T TSize d a al t
  = match store T (storage a) (index (pData a) + numElements a) t with
    | Some s =>
        Done (true,
              mkArrayList (pData a) s (wrap32 (numElements a + 1)) (capacity a), al)
    | None => Undefined
    end.
Proof.
  intros Hlt. destruct d; simpl;
    (destruct (Z.ltb_spec (numElements a) (capacity a)); [reflexivity | lia]).
Qed.

Lemma Add_rec_grow d a al t :
  capacity a <= numElements a ->
  ArrayList.Add_rec T TSize (S d) a al t
  = match Double a al with
    | Done (true, a1, al1) => ArrayList.Add_rec T TSize d a1 al1 t
    | Done (false, a1, al1) => Done (false, a1, al1)
    | Undefined => Undefined
    | OutOfFuel => OutOfFuel
    end.
Proof.
  intros Hge. cbn [ArrayList.Add_rec].
  destruct (Z.ltb_spec (numElements a) (capacity a)); [lia | reflexivity].
Qed.

Lemma store_Some s i t s' :
  store T s i t = Some s' ->
  0 <= i < len s /\ s' = <[Z.to_nat i := Some t]> s.
Proof.
  unfold store. destruct (_ && _) eqn:E; [|discriminate].
  intros [= <-]. split; [lia | reflexivity].
Qed.

Lemma store_in_range s i t :
  0 <= i < len s -> store T s i t = Some (<[Z.to_nat i := Some t]> s).
Proof.
  intros Hi. unfold store. destruct (_ && _) eqn:E; [reflexivity | lia].
Qed.

Lemma Add_rec_fits d a al t :
  index (pData a) = 0 ->
  numElements a < capacity a -> 0 <= numElements a < len (storage a) ->
  numElements a + 1 < 2 ^ 32 ->
  ArrayList.Add_rec T TSize d a al t
  = Done (true,
          mkArrayList (pData a) (<[Z.to_nat (numElements a) := Some t]> (storage a))
            (numElements a + 1) (capacity a),
          al).
Proof.
  intros Hi Hlt Hn Hr. rewrite Add_rec_stores by exact Hlt.
  rewrite Hi, Z.add_0_l, store_in_range by exact Hn.
  rewrite wrap32_small by lia. reflexivity.
Qed.

Lemma appended_elements (s : list (slot T)) (count : Z) t :
  0 <= count < len s ->
  take (Z.to_nat (count + 1)) (<[Z.to_nat count := Some t]> s)
  = take (Z.to_nat count) s ++ [Some t].
Proof.
  intros Hc. replace (Z.to_nat (count + 1)) with (S (Z.to_nat count)) by lia.
  assert (Hi : (Z.to_nat count < length s)%nat) by lia.
  rewrite (take_S_r _ _ (Some t)) by (apply list_lookup_insert_eq; exact Hi).
  rewrite take_insert_ge by lia. reflexivity.
Qed.

(** Two nested calls are enough, whatever the state. *)
Lemma Add_total a al t : Add a al t <> OutOfFuel.
Proof.
  assert (Hfits : forall d a1 al1, numElements a1 < capacity a1 ->
            ArrayList.Add_rec T TSize d a1 al1 t <> OutOfFuel).
  { intros d a1 al1 Hlt. rewrite Add_rec_stores by exact Hlt.
    destruct (store _ _ _ _); discriminate. }
  unfold ArrayList.Add.
  destruct (Z.lt_ge_cases (numElements a) (capacity a)) as [Hlt|Hge];
    [apply Hfits; exact Hlt|].
  rewrite Add_rec_grow, Double_eq by exact Hge.
  destruct (Expand a al _) as [[[[] a1] al1]| |] eqn:He; try discriminate;
    [|exfalso; exact (Expand_defined _ _ _ He)].
  apply Expand_inversion in He as [(? & _) | (_ & Hn & Hl1 & b & al0 & _ & _ & ->)];
    [discriminate|].
  set (c1 := if capacity a =? 0 then 4 else wrap32 (2 * capacity a)) in *.
  assert (Hc1 : 0 <= c1 < 2 ^ 32).
  { subst c1. destruct (capacity a =? 0); [lia | apply wrap32_range]. }
  pose proof (slots_of_bytes c1 ltac:(lia)) as [Hs1 _].
  destruct (Z.lt_ge_cases (numElements a) c1) as [Hlt1|Hge1];
    [apply Hfits; simpl; exact Hlt1|].
  rewrite Add_rec_grow, Double_eq by (simpl; lia).
  destruct (Expand _ _ _) as [[[[] a2] al2]| |] eqn:He2; try discriminate;
    [|exfalso; exact (Expand_defined _ _ _ He2)].
  apply Expand_inversion in He2 as [(? & _) | (_ & _ & Hl2 & b2 & al3 & _ & _ & ->)];
    [discriminate|].
  simpl in Hl2.
  set (c2 := if c1 =? 0 then 4 else wrap32 (2 * c1)) in *.
  assert (Hc2 : 0 <= c2 < 2 ^ 32).
  { subst c2. destruct (c1 =? 0); [lia | apply wrap32_range]. }
  pose proof (slots_of_bytes c2 ltac:(lia)) as [Hs2 _].
  apply Hfits. simpl.
  assert (Hc : numElements a = c1) by lia.
  subst c2. destruct (Z.eqb_spec c1 0) as [Hz|Hnz]; [lia|].
  pose proof (wrap32_double c1 ltac:(lia) ltac:(lia)). lia.
Qed.

(** *** What every call keeps *)

Lemma Erase_bounds a position num r :
  index (pData a) = 0 -> 0 <= position -> 0 <= num ->
  position + num < numElements a ->
  Erase a position num = Done r ->
  numElements a + num - 1 <= len (storage a).
Proof.
  intros Hi Hp Hnum Hlt. unfold ArrayList.Erase, ptr_ltb, ptr_diff, end_, begin, Size, ptr_add.
  simpl. rewrite Hi, !Z.add_0_l.
  destruct (Z.ltb_spec position (numElements a)); [|lia].
  destruct (Z.ltb_spec (position + num) (numElements a)); [|lia].
  destruct (ArrayList.copy_bytes _ _ _ _ _ _ _) as [s|] eqn:Hc; [|discriminate].
  intros _. apply copy_bytes_Some in Hc as (n & Hb & _ & _ & Hs & _).
  assert (n = numElements a - position - 1) by nia. lia.
Qed.

Ltac unchanged :=
  split; [assumption | split; [lia | simpl; lia]].

Lemma nonnull_in_block (a : ArrayList T) k :
  inv a -> 0 < len (storage a) -> is_null (ptr_add (pData a) k) = false.
Proof.
  intros (_ & _ & _ & _ & Hblk) Hl. apply is_null_false. intros Hnull.
  apply Hblk; [exact Hl|]. unfold ptr_add, nullptr in Hnull. congruence.
Qed.

Lemma Erase_inv a position num p a1 :
  inv a -> 0 <= position -> 0 <= num ->
  Erase a position num = Done (p, a1) ->
  inv a1 /\ capacity a1 = capacity a
  /\ numElements a1 = numElements a + (if is_null p then 0 else - num).
Proof.
  intros Hinv Hp Hnum He.
  destruct (Z.lt_ge_cases (position + num) (numElements a)) as [Hlt|Hge].
  - pose proof Hinv as ((Hn0 & Hn) & (Hl & Hc) & Hb & Hi & Hblk).
    pose proof (Erase_bounds _ _ _ _ Hi Hp Hnum Hlt He) as Hin.
    rewrite Erase_moves in He by assumption. injection He as <- <-.
    rewrite nonnull_in_block by (assumption || lia).
    rewrite wrap32_small by lia.
    assert (Hlen : length (take (Z.to_nat position) (storage a)
                     ++ take (Z.to_nat (numElements a - position - 1))
                          (drop (Z.to_nat (position + num)) (storage a))
                     ++ drop (Z.to_nat (numElements a - 1)) (storage a))
                   = length (storage a)) by (list_len; lia).
    unfold ArrayList.inv. simpl. rewrite Hlen. repeat split; (lia || exact Hblk).
  - rewrite Erase_refuses in He by lia. injection He as <- <-.
    unchanged.
Qed.

Lemma Insert_rec_fits_inv d a al position src num p a1 al1 :
  inv a -> 0 <= position <= numElements a -> 1 <= num -> num < 2 ^ 32 ->
  wrap32 (numElements a + num) <= capacity a ->
  ArrayList.Insert_rec T TSize d a al position (Some (Outside src)) num = Done (p, a1, al1) ->
  inv a1 /\ capacity a1 = capacity a
  /\ numElements a1 = numElements a + num
  /\ is_null p = false
  /\ elements a1
     = take (Z.to_nat position) (elements a)
       ++ (Some <$> take (Z.to_nat num) src)
       ++ drop (Z.to_nat position) (elements a).
Proof.
  intros Hinv Hp Hnum Hnum32 Hfit Hr.
  pose proof (Insert_rec_fits_bounds _ _ _ _ _ _ _ Hinv Hp Hnum Hnum32 Hfit Hr)
    as [Hin Hsrc].
  pose proof Hinv as ((Hn0 & Hn) & (Hl & Hc) & Hb & Hi & Hblk).
  rewrite Insert_rec_fits in Hr by (assumption || lia).
  injection Hr as <- <- <-.
  rewrite nonnull_in_block by (assumption || lia).
  unfold ArrayList.inv, elements. simpl.
  rewrite length_inserted by lia.
  rewrite inserted_elements by lia.
  repeat split; (lia || exact Hblk || reflexivity).
Qed.

Lemma copy_in_Some s dst (src : source T) bytes s2 :
  ArrayList.copy_in T TSize s dst src bytes = Some s2 ->
  exists n,
    bytes = n * Z.pos TSize /\ 0 <= n /\ 0 <= dst /\ dst + n <= len s
    /\ len s2 = len s.
Proof.
  intros Hc. destruct src as [src | i |]; simpl in Hc; [| |discriminate].
  - pose proof (copy_bytes_length _ _ _ _ _ _ Hc) as Hlen.
    apply copy_bytes_Some in Hc as (n & Hn & Hn0 & _ & _ & Hd & Hdn & _).
    exists n. rewrite Hlen. auto.
  - destruct (_ && _); [discriminate|].
    pose proof (copy_bytes_length _ _ _ _ _ _ Hc) as Hlen.
    apply copy_bytes_Some in Hc as (n & Hn & Hn0 & _ & _ & Hd & Hdn & _).
    exists n. rewrite Hlen. auto.
Qed.

(** A call of [Insert] that finds room and returns has done its [memmove]
    and its [memcpy]. *)
Lemma Insert_rec_fits_inversion d a al position (src : source T) num p a1 al1 :
  inv a -> 0 <= position <= numElements a -> 1 <= num -> num < 2 ^ 32 ->
  wrap32 (numElements a + num) <= capacity a ->
  ArrayList.Insert_rec T TSize d a al position (Some src) num = Done (p, a1, al1) ->
  exists s1 s2,
    ArrayList.copy_bytes T TSize (storage a)
      (numElements a + num + - (numElements a - position))
      (storage a) position ((numElements a - position) * Z.pos TSize) = Some s1
    /\ ArrayList.copy_in T TSize s1 position src (wrap32 (num * Z.pos TSize)) = Some s2
    /\ p = ptr_add (pData a) position
    /\ a1 = mkArrayList (pData a) s2 (wrap32 (numElements a + num)) (capacity a)
    /\ al1 = al.
Proof.
  intros Hinv Hp Hnum Hnum32 Hfit Hr.
  pose proof Hinv as ((Hn0 & Hn) & (Hl & Hc) & Hb & Hi & Hblk).
  assert (Hm : wrap32 (numElements a - position) = numElements a - position)
    by (apply wrap32_small; lia).
  assert (Hb1 : wrap32 ((numElements a - position) * Z.pos TSize)
                = (numElements a - position) * Z.pos TSize)
    by (apply wrap32_small; nia).
  destruct d; cbn [ArrayList.Insert_rec] in Hr;
    unfold end_, begin, Size, ptr_add in Hr; cbn [block index] in Hr;
    rewrite Hi, Hm, Hb1, !Z.add_0_l in Hr;
    (destruct (Z.eqb_spec num 0); [lia|]);
    (destruct (Z.ltb_spec (numElements a) position); [lia|]);
    (destruct (Z.leb_spec (wrap32 (numElements a + num)) (capacity a)); [|lia]);
    destruct (ArrayList.copy_bytes _ _ _ _ _ _ _) as [s1|] eqn:E1 in Hr;
    try discriminate;
    destruct (ArrayList.copy_in _ _ _ _ _ _) as [s2|] eqn:E2 in Hr;
    try discriminate;
    injection Hr as <- <- <-; exists s1, s2; unfold ptr_add; rewrite Hi, Z.add_0_l;
    auto.
Qed.

(** What a call of [Insert] that finds room leaves, wherever its source
    lies. *)
Lemma Insert_rec_fits_shape d a al position (src : source T) num p a1 al1 :
  inv a -> 0 <= position <= numElements a -> 1 <= num -> num < 2 ^ 32 ->
  wrap32 (numElements a + num) <= capacity a ->
  ArrayList.Insert_rec T TSize d a al position (Some src) num = Done (p, a1, al1) ->
  inv a1 /\ capacity a1 = capacity a
  /\ numElements a1 = numElements a + num
  /\ is_null p = false.
Proof.
  intros Hinv Hp Hnum Hnum32 Hfit Hr.
  pose proof Hinv as ((Hn0 & Hn) & (Hl & Hc) & Hb & Hi & Hblk).
  destruct (Insert_rec_fits_inversion _ _ _ _ _ _ _ _ _ Hinv Hp Hnum Hnum32 Hfit Hr)
    as (s1 & s2 & Hc1 & Hc2 & -> & -> & ->).
  pose proof (copy_bytes_length _ _ _ _ _ _ Hc1) as Hlen1.
  apply copy_bytes_Some in Hc1 as (n1 & Hn1 & Hn1pos & _ & Hs1 & Hd1 & Hdn1 & _).
  apply copy_in_Some in Hc2 as (n2 & Hn2 & Hn2pos & Hd2 & Hdn2 & Hlen2).
  assert (n1 = numElements a - position) by nia. subst n1.
  rewrite wrap32_small in Hn2 by nia.
  assert (n2 = num) by nia. subst n2.
  assert (Hw : wrap32 (numElements a + num) = numElements a + num).
  { apply wrap32_small. unfold slot in *. lia. }
  rewrite nonnull_in_block by (assumption || unfold slot in *; lia).
  unfold ArrayList.inv. simpl. rewrite Hw.
  unfold slot in *. rewrite Hlen2, Hlen1.
  repeat split; (lia || exact Hblk || reflexivity).
Qed.

Lemma Insert_inv a al position pSrc num p a1 al1 :
  inv a -> 0 <= position -> 0 <= num < 2 ^ 32 ->
  Insert a al position pSrc num = Done (p, a1, al1) ->
  inv a1 /\ capacity a <= capacity a1
  /\ numElements a1 = numElements a + (if is_null p then 0 else num).
Proof.
  intros Hinv Hp Hnum Hr.
  destruct (Z.eq_dec num 0) as [->|Hnz].
  { rewrite Insert_nothing in Hr. injection Hr as <- <- <-.
    destruct (is_null _); unchanged. }
  destruct pSrc as [src|].
  2:{ rewrite Insert_refuses_null in Hr by exact Hnz. injection Hr as <- <- <-.
      unchanged. }
  destruct (Z.lt_ge_cases (numElements a) position) as [Hout|Hin].
  { rewrite Insert_refuses_position in Hr by assumption. injection Hr as <- <- <-.
    unchanged. }
  destruct (Z.le_gt_cases (wrap32 (numElements a + num)) (capacity a)) as [Hfit|Hgrow].
  { apply Insert_rec_fits_shape in Hr as (Hinv1 & Hc1 & Hn1 & ->);
      try assumption; try lia.
    unchanged. }
  unfold ArrayList.Insert in Hr. rewrite Insert_rec_grow in Hr by lia.
  destruct (Expand a al _) as [[[[] a2] al2]| |] eqn:He; try discriminate.
  - pose proof (wrap32_range (numElements a + num)) as Hw.
    apply Expand_inv in He as (Hinv2 & Hn2 & Hc2 & _ & _); [|assumption|lia].
    assert (Hsrc : exists src', left_behind T (Some src) = Some src')
      by (destruct src; simpl; eauto).
    destruct Hsrc as [src' Hsrc]. rewrite Hsrc in Hr.
    apply Insert_rec_fits_shape in Hr as (Hinv1 & Hc1 & Hn1 & ->);
      try assumption; try (rewrite ?Hn2, ?Hc2; lia).
    unchanged.
  - apply Expand_inversion in He as [(_ & -> & _) | (? & _)]; [|discriminate].
    injection Hr as <- <- <-. unchanged.
Qed.

Lemma Add_rec_fits_inv d a al t ok a1 al1 :
  inv a -> numElements a < capacity a ->
  ArrayList.Add_rec T TSize d a al t = Done (ok, a1, al1) ->
  ok = true /\ inv a1 /\ capacity a1 = capacity a
  /\ numElements a1 = numElements a + 1
  /\ elements a1 = elements a ++ [Some t].
Proof.
  intros Hinv Hlt Hr.
  pose proof Hinv as ((Hn0 & Hn) & (Hl & Hc) & Hb & Hi & Hblk).
  rewrite Add_rec_stores in Hr by exact Hlt.
  destruct (store _ _ _ _) as [s|] eqn:Hs; [|discriminate].
  apply store_Some in Hs as [Hin ->]. rewrite Hi, Z.add_0_l in Hin.
  injection Hr as <- <- <-. rewrite Hi, Z.add_0_l.
  rewrite wrap32_small by lia.
  unfold ArrayList.inv, elements. simpl.
  rewrite length_insert, appended_elements by lia.
  repeat split; (lia || exact Hblk || reflexivity).
Qed.

Lemma Add_inv a al t ok a1 al1 :
  inv a ->
  Add a al t = Done (ok, a1, al1) ->
  inv a1 /\ capacity a <= capacity a1
  /\ numElements a1 = numElements a + (if ok then 1 else 0).
Proof.
  intros Hinv Hr. unfold ArrayList.Add in Hr.
  destruct (Z.lt_ge_cases (numElements a) (capacity a)) as [Hlt|Hge].
  { apply Add_rec_fits_inv in Hr as (-> & Hinv1 & Hc1 & Hn1 & _); try assumption.
    unchanged. }
  pose proof Hinv as ((Hn0 & Hn) & (Hl & Hc) & Hb & Hi & Hblk).
  rewrite Add_rec_grow, Double_eq in Hr by exact Hge.
  set (c1 := if capacity a =? 0 then 4 else wrap32 (2 * capacity a)) in *.
  assert (Hc1 : 0 <= c1 < 2 ^ 32).
  { subst c1. destruct (capacity a =? 0); [lia | apply wrap32_range]. }
  destruct (Expand a al c1) as [[[[] a2] al2]| |] eqn:He; try discriminate.
  - apply Expand_inv in He as (Hinv2 & Hn2 & Hc2 & _ & Hl2); [|assumption|lia].
    pose proof (slots_of_bytes c1 ltac:(lia)) as [Hs1 _].
    pose proof Hinv2 as ((_ & Hn2') & _).
    assert (Hlt1 : numElements a2 < capacity a2).
    { rewrite Hn2, Hc2. subst c1.
      destruct (Z.eqb_spec (capacity a) 0) as [Hz|Hnz]; [lia|].
      assert (Hcap : numElements a = capacity a) by lia.
      pose proof (wrap32_double (capacity a) ltac:(lia) ltac:(lia)). lia. }
    apply Add_rec_fits_inv in Hr as (-> & Hinv1 & Hcap1 & Hn1 & _); try assumption.
    unchanged.
  - apply Expand_inversion in He as [(_ & -> & _) | (? & _)]; [|discriminate].
    injection Hr as <- <- <-. unchanged.
Qed.

Lemma apply_inv o a al gain a1 al1 :
  inv a -> op_args T o ->
  apply T TSize o a al = Done (gain, a1, al1) ->
  inv a1 /\ capacity a <= capacity a1 /\ numElements a1 = numElements a + gain.
Proof.
  intros Hinv Hargs Hr. destruct o as [t | position pSrc num | position num];
    simpl in Hr.
  - destruct (ArrayList.Add _ _ _ _ _) as [[[ok a2] al2]| |] eqn:Ha; try discriminate.
    injection Hr as <- <- <-. eapply Add_inv; eassumption.
  - destruct Hargs as [Hp Hnum]. unfold uint32 in Hp, Hnum.
    destruct (ArrayList.Insert _ _ _ _ _ _ _) as [[[p a2] al2]| |] eqn:Ha;
      try discriminate.
    injection Hr as <- <- <-. eapply Insert_inv; try eassumption; lia.
  - destruct Hargs as [Hp Hnum]. unfold uint32 in Hp, Hnum.
    destruct (ArrayList.Erase _ _ _ _ _) as [[p a2]| |] eqn:Ha; try discriminate.
    injection Hr as <- <- <-.
    apply Erase_inv in Ha as (Hinv1 & Hc & Hn); try assumption; try lia.
    unchanged.
Qed.

Lemma apply_total o a al : apply T TSize o a al <> OutOfFuel.
Proof.
  destruct o as [t | position pSrc num | position num]; simpl.
  - pose proof (Add_total a al t).
    destruct (ArrayList.Add _ _ _ _ _) as [[[ok a2] al2]| |]; congruence.
  - pose proof (Insert_total a al position pSrc num).
    destruct (ArrayList.Insert _ _ _ _ _ _ _) as [[[p a2] al2]| |]; congruence.
  - assert (Erase a position num <> OutOfFuel).
    { unfold ArrayList.Erase. destruct (_ <? _); [|discriminate].
      destruct (ptr_ltb _ _); [|discriminate].
      destruct (ArrayList.copy_bytes _ _ _ _ _ _ _); discriminate. }
    destruct (ArrayList.Erase _ _ _ _ _) as [[p a2]| |]; congruence.
Qed.

(** *** Well-formed states *)

Lemma well_formed_empty : well_formed empty.
Proof.
  unfold ArrayList.well_formed, ArrayList.inv. simpl. repeat split; lia.
Qed.

Lemma with_capacity_inv (al : A) cap :
  0 <= cap < 2 ^ 32 -> inv (fst (with_capacity T TSize al cap)).
Proof.
  intros Hcap. unfold with_capacity.
  destruct (Allocate al _) as [[b|] al1]; unfold ArrayList.inv; simpl.
  - rewrite length_replicate.
    pose proof (slots_of_bytes cap ltac:(lia)) as [Hs1 Hs2].
    repeat split; (lia || discriminate).
  - repeat split; lia.
Qed.

Lemma expanded_well_formed a b newCapacity :
  inv a -> numElements a <= newCapacity -> 0 < newCapacity ->
  newCapacity * Z.pos TSize < 2 ^ 32 ->
  well_formed (expanded a b newCapacity)
  /\ elements (expanded a b newCapacity) = elements a.
Proof.
  intros ((Hn0 & Hn) & (Hl & Hc) & Hb & Hi & Hblk) Hfit Hpos Hbytes.
  pose proof (length_elements a ltac:(lia)) as Hle.
  unfold ArrayList.expanded.
  rewrite slots_of_bytes_exact by lia.
  assert (Hlen : len (elements a ++ replicate (Z.to_nat (newCapacity - numElements a)) None)
                 = newCapacity).
  { rewrite length_app, length_replicate. lia. }
  split.
  - unfold ArrayList.well_formed, ArrayList.inv. simpl. rewrite Hlen.
    repeat split; try nia; discriminate.
  - unfold elements at 1. simpl.
    rewrite take_app_length'; [reflexivity | lia].
Qed.

Lemma Add_rec_appends d a al t :
  well_formed a -> numElements a < capacity a ->
  exists a1,
    ArrayList.Add_rec T TSize d a al t = Done (true, a1, al)
    /\ well_formed a1 /\ pData a1 = pData a /\ capacity a1 = capacity a
    /\ numElements a1 = numElements a + 1
    /\ elements a1 = elements a ++ [Some t].
Proof.
  intros [Hinv Hlen] Hlt.
  pose proof Hinv as ((Hn0 & Hn) & (Hl & Hc) & Hb & Hi & Hblk).
  pose proof (Add_rec_fits d a al t Hi Hlt ltac:(lia) ltac:(lia)) as Hr.
  eexists. split; [exact Hr|].
  apply Add_rec_fits_inv in Hr as (_ & Hinv1 & Hc1 & Hn1 & He1); try assumption.
  split; [split; [exact Hinv1 | simpl; rewrite length_insert; exact Hlen]|].
  simpl in *. auto.
Qed.

Lemma Add_grows a al t b al1 :
  well_formed a -> numElements a = capacity a ->
  (if capacity a =? 0 then 4 else 2 * capacity a) * Z.pos TSize < 2 ^ 32 ->
  Allocate al ((if capacity a =? 0 then 4 else 2 * capacity a) * Z.pos TSize)
  = (Some b, al1) ->
  exists a1,
    Add a al t = Done (true, a1, Free al1 (pData a))
    /\ well_formed a1 /\ pData a1 = Ptr (Z.pos b) 0
    /\ capacity a1 = (if capacity a =? 0 then 4 else 2 * capacity a)
    /\ numElements a1 = numElements a + 1
    /\ elements a1 = elements a ++ [Some t].
Proof.
  intros [Hinv Hlen] Hfull Hbytes Hal.
  pose proof Hinv as ((Hn0 & Hn) & (Hl & Hc) & Hb & Hi & Hblk).
  set (c := if capacity a =? 0 then 4 else 2 * capacity a) in *.
  assert (Hc0 : capacity a < c /\ 0 < c).
  { subst c. destruct (Z.eqb_spec (capacity a) 0); lia. }
  assert (Hnew : (if capacity a =? 0 then 4 else wrap32 (2 * capacity a)) = c).
  { subst c. destruct (Z.eqb_spec (capacity a) 0); [reflexivity|].
    apply wrap32_small. nia. }
  unfold ArrayList.Add. rewrite Add_rec_grow, Double_eq, Hnew by lia.
  rewrite (Expand_success a al c b al1);
    [| rewrite wrap32_small by nia; exact Hal | lia
     | rewrite slots_of_bytes_exact by lia; lia ].
  fold (expanded a b c).
  destruct (expanded_well_formed a b c Hinv ltac:(lia) ltac:(lia) Hbytes) as [Hwf He].
  destruct (Add_rec_appends 1 (expanded a b c) (Free al1 (pData a)) t Hwf
              ltac:(simpl; lia)) as (a1 & Hr & Hwf1 & Hp1 & Hc1 & Hn1 & He1).
  exists a1. rewrite He in He1. simpl in Hp1, Hc1, Hn1. auto 10.
Qed.

Lemma Add_growth_fails a al t :
  capacity a <= numElements a ->
  fst (Allocate al (wrap32 ((if capacity a =? 0 then 4 else wrap32 (2 * capacity a))
                            * Z.pos TSize))) = None ->
  Add a al t
  = Done (false, a,
          snd (Allocate al (wrap32 ((if capacity a =? 0 then 4
                                     else wrap32 (2 * capacity a)) * Z.pos TSize)))).
Proof.
  intros Hge Hal. unfold ArrayList.Add.
  rewrite Add_rec_grow, Double_eq by exact Hge.
  rewrite Expand_failure by exact Hal. reflexivity.
Qed.

Lemma Reserve_grows_well_formed a b num :
  inv a -> 1 <= num -> (numElements a + num) * Z.pos TSize < 2 ^ 32 ->
  let a1 := mkArrayList (Ptr (Z.pos b) 0)
              (elements a
               ++ replicate (Z.to_nat (numElements a + num - numElements a)) None)
              (numElements a + num) (numElements a + num) in
  well_formed a1
  /\ take (Z.to_nat (numElements a)) (storage a1) = elements a
  /\ drop (Z.to_nat (numElements a)) (storage a1) = replicate (Z.to_nat num) None.
Proof.
  intros ((Hn0 & Hn) & (Hl & Hc) & Hb & Hi & Hblk) Hnum Hbytes a1. subst a1.
  pose proof (length_elements a ltac:(lia)) as Hle.
  replace (numElements a + num - numElements a) with num by lia.
  assert (Hlen : len (elements a ++ replicate (Z.to_nat num) (@None T))
                 = numElements a + num).
  { rewrite length_app, length_replicate. lia. }
  split; [|simpl; split].
  - unfold ArrayList.well_formed, ArrayList.inv. simpl. rewrite Hlen.
    repeat split; try nia; discriminate.
  - rewrite take_app_length'; [reflexivity | lia].
  - rewrite drop_app_length'; [reflexivity | lia].
Qed.

(** *** The claims about single calls *)

Lemma Erase_erases a position num :
  well_formed a -> 0 <= position -> 1 <= num ->
  position + num < numElements a -> numElements a + num - 1 <= capacity a ->
  exists a1,
    Erase a position num = Done (ptr_add (pData a) position, a1)
    /\ is_null (ptr_add (pData a) position) = false
    /\ well_formed a1
    /\ pData a1 = pData a /\ capacity a1 = capacity a
    /\ numElements a1 = numElements a - num
    /\ elements a1
       = take (Z.to_nat position) (elements a)
         ++ drop (Z.to_nat (position + num)) (elements a).
Proof.
  intros [Hinv Hlen] Hp Hnum Hlt Hin.
  pose proof Hinv as ((Hn0 & Hn) & (Hl & Hc) & Hb & Hi & Hblk).
  pose proof (Erase_moves a position num Hi Hp ltac:(lia) Hlt ltac:(lia)) as He.
  eexists. split; [exact He|].
  split; [apply nonnull_in_block; [assumption | lia]|].
  apply Erase_inv in He as (Hinv1 & _ & _); [| assumption | lia | lia].
  split.
  { split; [exact Hinv1|]. simpl. list_len. lia. }
  rewrite wrap32_small by lia. unfold elements. simpl.
  rewrite Erase_elements by lia. auto.
Qed.

(** C1, as amended.  For a well-formed array, a position and [num >= 1]:
    when [position + num < count] and the [memmove] of the call stays
    inside the storage ([count + num - 1 <= capacity], always so for
    [num = 1]), [Erase] removes the [num] elements at [position], shifting
    the ones behind them left, decreases the count by [num] and returns the
    non-null pointer to the element now at [position]; when
    [position >= count] or [position + num > count] it returns null and
    leaves the array as it was. *)
Theorem Erase_spec a position num :
  well_formed a -> 0 <= position -> 1 <= num ->
  (position + num < numElements a -> numElements a + num - 1 <= capacity a ->
   exists a1,
     Erase a position num = Done (ptr_add (pData a) position, a1)
     /\ is_null (ptr_add (pData a) position) = false
     /\ well_formed a1
     /\ pData a1 = pData a /\ capacity a1 = capacity a
     /\ numElements a1 = numElements a - num
     /\ elements a1
        = take (Z.to_nat position) (elements a)
          ++ drop (Z.to_nat (position + num)) (elements a))
  /\ (numElements a <= position \/ numElements a < position + num ->
      Erase a position num = Done (nullptr, a)).
Proof.
  intros Hwf Hp Hnum. split.
  - intros Hlt Hin. apply Erase_erases; assumption.
  - intros Hout. apply Erase_refuses. lia.
Qed.

(** Where [Erase] erases, inserting the erased elements back restores the
    array. *)
Lemma Erase_Insert_round_trip a al position num src :
  well_formed a -> 0 <= position -> 1 <= num ->
  position + num < numElements a -> numElements a + num - 1 <= capacity a ->
  take (Z.to_nat num) (drop (Z.to_nat position) (elements a)) = Some <$> src ->
  exists p1 a1 p2 a2,
    Erase a position num = Done (p1, a1)
    /\ Insert a1 al position (Some (Outside src)) num = Done (p2, a2, al)
    /\ numElements a2 = numElements a
    /\ capacity a2 = capacity a
    /\ elements a2 = elements a.
Proof.
  intros Hwf Hp Hnum Hlt Hin Hsrc.
  pose proof Hwf as [Hinv Hlen].
  pose proof Hinv as ((Hn0 & Hn) & (Hl & Hc) & Hb & Hi & Hblk).
  pose proof (length_elements a ltac:(lia)) as Hle.
  assert (Hls : len src = num).
  { apply (f_equal (@length _)) in Hsrc.
    rewrite length_take, length_drop, length_fmap in Hsrc. lia. }
  destruct (Erase_erases a position num Hwf Hp Hnum Hlt Hin)
    as (a1 & He & _ & Hwf1 & Hp1 & Hc1 & Hn1 & Hel1).
  destruct Hwf1 as [Hinv1 Hlen1].
  pose proof Hinv1 as (_ & _ & Hb1 & Hi1 & _).
  pose proof (Insert_rec_fits 1 a1 al position src num Hi1 Hb1
                ltac:(lia) Hnum ltac:(lia) ltac:(lia) ltac:(lia) ltac:(lia)) as Hr.
  pose proof Hr as Hr'.
  apply Insert_rec_fits_inv in Hr' as (_ & Hc2 & Hn2 & _ & Hel2);
    [| assumption | lia | lia | lia | rewrite wrap32_small by lia; lia ].
  eexists _, a1, _, _. split; [exact He|]. split; [exact Hr|].
  split; [lia|]. split; [lia|].
  rewrite Hel2, Hel1.
  rewrite take_app_length' by (list_len; lia).
  rewrite drop_app_length' by (list_len; lia).
  rewrite (take_ge src) by lia. rewrite <- Hsrc.
  replace (Z.to_nat (position + num)) with (Z.to_nat position + Z.to_nat num)%nat by lia.
  rewrite <- drop_drop, take_drop, take_drop. reflexivity.
Qed.

(** C5.  When a call of [Add], [Reserve] or [Insert] needs more capacity
    and the allocator returns null, the call returns false (null for
    [Reserve] and [Insert]) and the array is in every field what it was
    before the call. *)
Theorem failed_growth_unchanged (a : ArrayList T) (al : A) :
  (forall t,
     capacity a <= numElements a ->
     fst (Allocate al (wrap32 ((if capacity a =? 0 then 4 else wrap32 (2 * capacity a))
                               * Z.pos TSize))) = None ->
     exists al1, Add a al t = Done (false, a, al1))
  /\ (forall num,
        num <> 0 -> capacity a < wrap32 (numElements a + num) ->
        fst (Allocate al (wrap32 (wrap32 (numElements a + num) * Z.pos TSize))) = None ->
        exists al1, Reserve a al num = Done (nullptr, a, al1))
  /\ (forall position src num,
        num <> 0 -> position <= numElements a ->
        capacity a < wrap32 (numElements a + num) ->
        fst (Allocate al (wrap32 (wrap32 (numElements a + num) * Z.pos TSize))) = None ->
        exists al1, Insert a al position (Some (Outside src)) num = Done (nullptr, a, al1)).
Proof.
  repeat split.
  - intros t Hge Hal. eexists. apply Add_growth_fails; assumption.
  - intros num Hnum Hgrow Hal. eexists. apply Reserve_growth_fails; assumption.
  - intros position src num Hnum Hp Hgrow Hal. eexists.
    apply Insert_growth_fails; assumption.
Qed.

(** C6, as amended.  For a well-formed array: [Reserve(0)] returns null and
    changes nothing.  For [num >= 1] with [(count + num) * sizeof(T) < 2^32],
    [Reserve(num)] returns null exactly when the array has to grow and the
    allocator returns null, and then the array is unchanged; otherwise it
    returns the non-null pointer to slot [count] of the storage, the count
    grows by [num], the elements before it are kept, and no slot is written
    (after a growth the new slots are empty). *)
Theorem Reserve_spec a al num :
  well_formed a ->
  Reserve a al 0 = Done (nullptr, a, al)
  /\ (1 <= num -> (numElements a + num) * Z.pos TSize < 2 ^ 32 ->
      exists p a1 al1,
        Reserve a al num = Done (p, a1, al1)
        /\ (is_null p = true <->
            capacity a < numElements a + num
            /\ fst (Allocate al ((numElements a + num) * Z.pos TSize)) = None)
        /\ (is_null p = true -> a1 = a)
        /\ (is_null p = false ->
            p = ptr_add (pData a1) (numElements a)
            /\ numElements a1 = numElements a + num
            /\ well_formed a1
            /\ take (Z.to_nat (numElements a)) (storage a1) = elements a
            /\ (numElements a + num <= capacity a -> storage a1 = storage a)
            /\ (capacity a < numElements a + num ->
                drop (Z.to_nat (numElements a)) (storage a1)
                = replicate (Z.to_nat num) None))).
Proof.
  intros [Hinv Hlen]. split; [reflexivity|]. intros Hnum Hbytes.
  pose proof Hinv as ((Hn0 & Hn) & (Hl & Hc) & Hb & Hi & Hblk).
  assert (Hw : wrap32 (numElements a + num) = numElements a + num)
    by (apply wrap32_small; nia).
  assert (Hwb : wrap32 ((numElements a + num) * Z.pos TSize)
                = (numElements a + num) * Z.pos TSize)
    by (apply wrap32_small; nia).
  destruct (Z.le_gt_cases (numElements a + num) (capacity a)) as [Hfit|Hgrow].
  - exists (ptr_add (pData a) (numElements a)),
      (set_numElements T a (numElements a + num)), al.
    rewrite Reserve_fits, Hw by lia.
    rewrite nonnull_in_block by (assumption || lia).
    split; [reflexivity|]. split; [split; [discriminate | lia]|].
    split; [discriminate|]. intros _.
    unfold ArrayList.well_formed, ArrayList.inv, elements. simpl.
    repeat split; (lia || assumption).
  - destruct (Allocate al ((numElements a + num) * Z.pos TSize)) as [[b|] al1] eqn:Hal.
    + eexists _, _, _.
      rewrite (Reserve_growth a al num b al1), Hw, Hwb;
        [| lia | lia | rewrite Hw, Hwb; exact Hal | lia
         | rewrite Hw, slots_of_bytes_exact by lia; lia ].
      rewrite Z.div_mul by lia.
      destruct (Reserve_grows_well_formed a b num Hinv Hnum Hbytes) as (Hwf & Hk & Hd).
      split; [reflexivity|]. simpl.
      split; [split; [discriminate | intros [_ ?]; discriminate]|].
      split; [discriminate|]. intros _.
      split; [reflexivity|]. split; [reflexivity|].
      split; [exact Hwf|]. split; [exact Hk|].
      split; [lia | intros _; exact Hd].
    + exists nullptr, a, al1.
      rewrite Reserve_growth_fails, Hw, Hwb, Hal by (rewrite ?Hw, ?Hwb, ?Hal; (lia || reflexivity)).
      split; [reflexivity|]. simpl.
      split; [split; [auto | reflexivity]|].
      split; [reflexivity | discriminate].
Qed.

Lemma Insert_grows_to_fit a al position src num b al1 :
  well_formed a -> 0 <= position <= numElements a -> 1 <= num -> num <= len src ->
  capacity a < numElements a + num ->
  (numElements a + num) * Z.pos TSize < 2 ^ 32 ->
  Allocate al ((numElements a + num) * Z.pos TSize) = (Some b, al1) ->
  exists a1,
    Insert a al position (Some (Outside src)) num
    = Done (Ptr (Z.pos b) position, a1, Free al1 (pData a))
    /\ inv a1 /\ capacity a1 = numElements a + num
    /\ numElements a1 = numElements a + num
    /\ elements a1
       = take (Z.to_nat position) (elements a)
         ++ (Some <$> take (Z.to_nat num) src)
         ++ drop (Z.to_nat position) (elements a).
Proof.
  intros [Hinv Hlen] Hp Hnum Hsrc Hgrow Hbytes Hal.
  pose proof Hinv as ((Hn0 & Hn) & (Hl & Hc) & Hb & Hi & Hblk).
  assert (Hw : wrap32 (numElements a + num) = numElements a + num)
    by (apply wrap32_small; nia).
  assert (Hwb : wrap32 ((numElements a + num) * Z.pos TSize)
                = (numElements a + num) * Z.pos TSize)
    by (apply wrap32_small; nia).
  rewrite (Insert_grows a al position (Outside src) num b al1), Hw;
    [| lia | lia | lia | rewrite Hw, Hwb; exact Hal | lia
     | rewrite Hw, slots_of_bytes_exact by lia; lia ].
  cbn [left_behind].
  destruct (expanded_well_formed a b (numElements a + num) Hinv
              ltac:(lia) ltac:(lia) Hbytes) as [[Hinv1 Hlen1] He].
  pose proof (Insert_rec_fits 0 (expanded a b (numElements a + num))
                (Free al1 (pData a)) position src num) as Hr.
  rewrite Hr by (try assumption; simpl in *; try reflexivity; lia).
  rewrite Hr in Hr by (try assumption; simpl in *; try reflexivity; lia).
  clear Hr.
  eexists. split; [reflexivity|].
  unfold ArrayList.inv, elements at 1. simpl.
  rewrite length_inserted, inserted_elements by (simpl in *; lia).
  unfold ArrayList.expanded in He, Hlen1. unfold elements at 1 in He.
  simpl in He, Hlen1. rewrite He, Hlen1.
  repeat split; (nia || discriminate || reflexivity).
Qed.

(** C4, as amended.  For a well-formed array whose growth is granted by the
    allocator and whose new size in bytes fits 32 bits: a growth triggered
    by [Add] sets the capacity to 4 when the old capacity is 0 and to twice
    the old capacity otherwise; a growth triggered by [Reserve(num)] or by
    [Insert(position, src, num)] sets it to exactly [count + num]. *)
Theorem growth_capacity a al b al1 :
  well_formed a ->
  (forall t,
     numElements a = capacity a ->
     (if capacity a =? 0 then 4 else 2 * capacity a) * Z.pos TSize < 2 ^ 32 ->
     Allocate al ((if capacity a =? 0 then 4 else 2 * capacity a) * Z.pos TSize)
     = (Some b, al1) ->
     exists a1,
       Add a al t = Done (true, a1, Free al1 (pData a))
       /\ capacity a1 = (if capacity a =? 0 then 4 else 2 * capacity a))
  /\ (forall num,
        1 <= num -> capacity a < numElements a + num ->
        (numElements a + num) * Z.pos TSize < 2 ^ 32 ->
        Allocate al ((numElements a + num) * Z.pos TSize) = (Some b, al1) ->
        exists p a1,
          Reserve a al num = Done (p, a1, Free al1 (pData a))
          /\ capacity a1 = numElements a + num)
  /\ (forall position src num,
        0 <= position <= numElements a -> 1 <= num -> num <= len src ->
        capacity a < numElements a + num ->
        (numElements a + num) * Z.pos TSize < 2 ^ 32 ->
        Allocate al ((numElements a + num) * Z.pos TSize) = (Some b, al1) ->
        exists p a1,
          Insert a al position (Some (Outside src)) num = Done (p, a1, Free al1 (pData a))
          /\ capacity a1 = numElements a + num).
Proof.
  intros Hwf. pose proof Hwf as [Hinv Hlen].
  pose proof Hinv as ((Hn0 & Hn) & (Hl & Hc) & Hb & Hi & Hblk).
  repeat split.
  - intros t Hfull Hbytes Hal.
    destruct (Add_grows a al t b al1 Hwf Hfull Hbytes Hal) as (a1 & Hr & _ & _ & Hc1 & _).
    eauto.
  - intros num Hnum Hgrow Hbytes Hal.
    assert (Hw : wrap32 (numElements a + num) = numElements a + num)
      by (apply wrap32_small; nia).
    assert (Hwb : wrap32 ((numElements a + num) * Z.pos TSize)
                  = (numElements a + num) * Z.pos TSize)
      by (apply wrap32_small; nia).
    eexists _, _.
    rewrite (Reserve_growth a al num b al1), Hw;
      [| lia | lia | rewrite Hw, Hwb; exact Hal | lia
       | rewrite Hw, slots_of_bytes_exact by lia; lia ].
    split; reflexivity.
  - intros position src num Hp Hnum Hsrc Hgrow Hbytes Hal.
    destruct (Insert_grows_to_fit a al position src num b al1 Hwf Hp Hnum Hsrc
                Hgrow Hbytes Hal) as (a1 & Hr & _ & Hc1 & _).
    eauto.
Qed.

(** *** The claims about sequences of calls *)

Lemma run_total ops a al : run T TSize ops a al <> OutOfFuel.
Proof.
  revert a al. induction ops as [|o ops IH]; intros a al; simpl; [discriminate|].
  pose proof (apply_total o a al) as Ho.
  destruct (apply T TSize o a al) as [[[gain a1] al1]| |]; try congruence.
  pose proof (IH a1 al1) as Hr.
  destruct (run T TSize ops a1 al1) as [[tr al2]| |]; congruence.
Qed.

(** X17.  From a consistent array (an empty one for instance), for every
    sequence of [Add], [Insert] and [Erase] with [uint32_t] arguments: the
    nested calls the embedding allows are enough (the run is never
    [OutOfFuel]), and whenever the run has a defined result, that is
    whenever every call stays inside the storage, every state [ak] it goes
    through has [0 <= count <= capacity], its count is the initial count
    plus the number of elements the calls so far reported to have added
    minus the number they reported to have erased, and its capacity is at
    least the capacity of every earlier state.  Sequences with a call that
    leaves the storage exist (four calls of [Add], then [Erase(0, 2)]);
    nothing is stated about them. *)
Theorem run_invariants ops a al :
  inv a -> Forall (op_args T) ops ->
  run T TSize ops a al <> OutOfFuel
  /\ forall tr al',
       run T TSize ops a al = Done (tr, al') ->
       length tr = length ops
       /\ forall k ak,
            states T a tr !! k = Some ak ->
            0 <= numElements ak <= capacity ak
            /\ numElements ak = numElements a + net T (take k tr)
            /\ forall j aj, (j <= k)%nat -> states T a tr !! j = Some aj ->
                 capacity aj <= capacity ak.
Proof.
  intros Hinv Hargs. split; [apply run_total|].
  revert a al Hinv. induction Hargs as [|o ops Ho Hops IH]; intros a al Hinv tr al' Hr.
  - simpl in Hr. injection Hr as <- <-. split; [reflexivity|].
    intros k ak Hk. destruct k as [|k]; [|discriminate].
    injection Hk as <-. destruct Hinv as ((Hn0 & Hn) & (Hl & Hc) & _).
    split; [lia|]. split; [unfold ArrayList.net; simpl; lia|].
    intros j aj Hj Haj. destruct j as [|j]; [|lia].
    injection Haj as <-. lia.
  - simpl in Hr.
    destruct (apply T TSize o a al) as [[[gain a1] al1]| |] eqn:Ha; try discriminate.
    destruct (run T TSize ops a1 al1) as [[tr1 al2]| |] eqn:Hr1; try discriminate.
    injection Hr as <- <-.
    apply apply_inv in Ha as (Hinv1 & Hcap & Hcount); [|assumption..].
    destruct (IH a1 al1 Hinv1 tr1 al2 Hr1) as [Hlen Hstates].
    split; [simpl; congruence|].
    intros k ak Hk. destruct k as [|k].
    + injection Hk as <-. destruct Hinv as ((Hn0 & Hn) & (Hl & Hc) & _).
      split; [lia|]. split; [unfold ArrayList.net; simpl; lia|].
      intros j aj Hj Haj. destruct j as [|j]; [|lia].
      injection Haj as <-. lia.
    + change (states T a1 tr1 !! k = Some ak) in Hk.
      destruct (Hstates k ak Hk) as (Hrange & Hnet & Hmono).
      split; [exact Hrange|]. split.
      * rewrite Hnet, Hcount. unfold ArrayList.net. simpl. lia.
      * intros j aj Hj Haj. destruct j as [|j].
        -- injection Haj as <-.
           pose proof (Hmono 0%nat a1 ltac:(lia) eq_refl). lia.
        -- change (states T a1 tr1 !! j = Some aj) in Haj.
           apply (Hmono j aj); [lia | exact Haj].
Qed.

Lemma never_fails_grants :
  never_fails A -> forall (al : A) n, exists b al1, Allocate al n = (Some b, al1).
Proof.
  intros Hnf al n. specialize (Hnf al n).
  destruct (Allocate al n) as [[b|] al1]; [eauto | contradiction].
Qed.

Lemma Add_appends a al t :
  well_formed a -> numElements a < capacity a ->
  exists a1,
    Add a al t = Done (true, a1, al)
    /\ well_formed a1 /\ pData a1 = pData a /\ capacity a1 = capacity a
    /\ numElements a1 = numElements a + 1
    /\ elements a1 = elements a ++ [Some t].
Proof. apply Add_rec_appends. Qed.

(** C8.  With an allocator that is never exhausted and [8 * sizeof(T)]
    fitting 32 bits, five calls of [Add] on an array created empty all
    return true; the capacity, 0 at first, is 4, 4, 4, 4 and 8 after them
    and the count after the k-th call is k.  The array then holds the five
    elements in the order they were added. *)
Theorem Add_five_times al t1 t2 t3 t4 t5 :
  never_fails A -> 8 * Z.pos TSize < 2 ^ 32 ->
  exists tr al',
    run T TSize [OpAdd T t1; OpAdd T t2; OpAdd T t3; OpAdd T t4; OpAdd T t5] empty al
    = Done (tr, al')
    /\ capacity (@empty T) = 0
    /\ map (fun '(gain, a) => (gain, numElements a, capacity a)) tr
       = [(1, 1, 4); (1, 2, 4); (1, 3, 4); (1, 4, 4); (1, 5, 8)]
    /\ exists a5,
         last tr = Some (1, a5)
         /\ elements a5 = [Some t1; Some t2; Some t3; Some t4; Some t5].
Proof.
  intros Hnf Hbytes. pose proof (never_fails_grants Hnf) as Hgrant.
  destruct (Hgrant al (4 * Z.pos TSize)) as (b1 & al1 & Hal1).
  destruct (Add_grows empty al t1 b1 al1 well_formed_empty eq_refl
              ltac:(simpl; lia) Hal1)
    as (a1 & H1 & Hwf1 & _ & Hc1 & Hn1 & He1).
  simpl in Hc1, Hn1, He1.
  destruct (Add_appends a1 (Free al1 (pData (@empty T))) t2 Hwf1 ltac:(lia))
    as (a2 & H2 & Hwf2 & _ & Hc2 & Hn2 & He2).
  destruct (Add_appends a2 (Free al1 (pData (@empty T))) t3 Hwf2 ltac:(lia))
    as (a3 & H3 & Hwf3 & _ & Hc3 & Hn3 & He3).
  destruct (Add_appends a3 (Free al1 (pData (@empty T))) t4 Hwf3 ltac:(lia))
    as (a4 & H4 & Hwf4 & _ & Hc4 & Hn4 & He4).
  assert (Hc4' : capacity a4 = 4) by lia.
  assert (Hn4' : numElements a4 = 4) by lia.
  destruct (Hgrant (Free al1 (pData (@empty T))) (8 * Z.pos TSize)) as (b5 & al5 & Hal5).
  destruct (Add_grows a4 (Free al1 (pData (@empty T))) t5 b5 al5 Hwf4 ltac:(lia)
              ltac:(rewrite Hc4'; simpl; lia)
              ltac:(rewrite Hc4'; simpl; exact Hal5))
    as (a5 & H5 & Hwf5 & _ & Hc5 & Hn5 & He5).
  rewrite Hc4' in Hc5. simpl in Hc5.
  exists [(1, a1); (1, a2); (1, a3); (1, a4); (1, a5)], (Free al5 (pData a4)).
  split.
  { cbn [ArrayList.run ArrayList.apply].
    rewrite H1. cbn [ArrayList.run ArrayList.apply].
    rewrite H2. cbn [ArrayList.run ArrayList.apply].
    rewrite H3. cbn [ArrayList.run ArrayList.apply].
    rewrite H4. cbn [ArrayList.run ArrayList.apply].
    rewrite H5. reflexivity. }
  split; [reflexivity|]. split.
  { simpl. repeat f_equal; lia. }
  exists a5. split; [reflexivity|].
  rewrite He5, He4, He3, He2, He1. reflexivity.
Qed.

End Facts.

(** *** The claims at sample arrays *)

Lemma well_formed_three : ArrayList.well_formed Z 4 Samples.three.
Proof.
  unfold ArrayList.well_formed, ArrayList.inv, Samples.three. simpl.
  repeat split; (lia || discriminate).
Qed.

(** The sample arrays are the ones that three and four calls of [Add]
    build. *)
Lemma three_is_reached :
  exists tr,
    ArrayList.run Z 4 [OpAdd Z 10; OpAdd Z 20; OpAdd Z 30] empty (1%positive : Unbounded)
    = Done (tr, 2%positive)
    /\ last tr = Some (1, Samples.three).
Proof. eexists. split; reflexivity. Qed.

Lemma full_is_reached :
  ArrayList.Add Z 4 Samples.three (2%positive : Unbounded) 40
  = Done (true, Samples.full, 2%positive).
Proof. reflexivity. Qed.

(** Erasing two elements of a full array of four makes [memmove] read the
    slot behind the storage. *)
Lemma Erase_reads_behind_the_storage :
  ArrayList.Erase Z 4 Samples.full 0 2 = Undefined.
Proof. reflexivity. Qed.


Lemma Erase_spec_witness :
  exists a1,
    ArrayList.Erase Z 4 Samples.three 0 1 = Done (Ptr 1 0, a1)
    /\ numElements a1 = 2
    /\ elements a1 = [Some 20; Some 30].
Proof.
  destruct (Erase_spec Z 4 Samples.three 0 1 well_formed_three
              ltac:(lia) ltac:(lia)) as [Hmoves _].
  destruct (Hmoves ltac:(simpl; lia) ltac:(simpl; lia))
    as (a1 & He & _ & _ & _ & _ & Hn & Hel).
  exists a1. split; [exact He|]. split; [exact Hn | exact Hel].
Defined.

(** C1 as the specification states it fails: position 1 lies below the
    count 3 of the sample array, yet [Erase(1, 5)] returns null and erases
    nothing. *)
Lemma Erase_beyond_count_returns_null :
  ~ (1 < numElements Samples.three ->
     exists p a1,
       ArrayList.Erase Z 4 Samples.three 1 5 = Done (p, a1)
       /\ is_null p = false
       /\ numElements a1 = numElements Samples.three - 5).
Proof.
  intros Hclaim.
  destruct (Hclaim ltac:(simpl; lia)) as (p & a1 & He & Hp & _).
  vm_compute in He. injection He as <- <-. discriminate Hp.
Qed.

(** C2 fails when the erased range ends at the last element: [Erase(2, 1)]
    on the sample array [10, 20, 30] returns null and erases nothing, so
    that inserting the third element back at position 2 leaves four
    elements. *)
Theorem Erase_then_Insert_at_the_end :
  2 + 1 <= numElements Samples.three
  /\ ArrayList.Erase Z 4 Samples.three 2 1 = Done (nullptr, Samples.three)
  /\ exists a1,
       ArrayList.Insert Z 4 Samples.three (2%positive : Unbounded) 2 (Some (Outside [30])) 1
       = Done (Ptr 1 2, a1, 2%positive)
       /\ numElements a1 = 4
       /\ elements a1 = [Some 10; Some 20; Some 30; Some 30].
Proof.
  split; [simpl; lia|]. split; [reflexivity|].
  eexists. split; [reflexivity|]. split; reflexivity.
Qed.

Lemma growth_capacity_witness :
  exists a1,
    ArrayList.Add Z 4 Samples.full (2%positive : Unbounded) 50
    = Done (true, a1, 3%positive)
    /\ capacity a1 = 8.
Proof.
  assert (Hwf : ArrayList.well_formed Z 4 Samples.full).
  { unfold ArrayList.well_formed, ArrayList.inv, Samples.full. simpl.
    repeat split; (lia || discriminate). }
  destruct (growth_capacity Z 4 Samples.full (2%positive : Unbounded) 2%positive
              3%positive Hwf) as (Hadd & _ & _).
  exact (Hadd 50 ltac:(reflexivity) ltac:(simpl; lia) ltac:(reflexivity)).
Defined.

(** C4 as the specification states it fails: the growth that [Reserve(1)]
    triggers on an empty array leaves capacity 1, not [max(4, 2 * 0)]. *)
Lemma Reserve_grows_to_the_count :
  ~ (exists p a1 al1,
       ArrayList.Reserve Z 4 empty (1%positive : Unbounded) 1 = Done (p, a1, al1)
       /\ capacity a1 = Z.max 4 (2 * capacity (@empty Z))).
Proof.
  intros (p & a1 & al1 & He & Hc). vm_compute in He.
  injection He as <- <- <-. discriminate Hc.
Qed.

Lemma failed_growth_unchanged_witness :
  exists al1,
    ArrayList.Add Z 4 empty (mkArena 1 3) 7 = Done (false, empty, al1).
Proof.
  destruct (failed_growth_unchanged Z 4 (@empty Z) (mkArena 1 3)) as (Hadd & _ & _).
  exact (Hadd 7 ltac:(simpl; lia) ltac:(reflexivity)).
Defined.

Lemma Reserve_spec_witness :
  exists p a1 al1,
    ArrayList.Reserve Z 4 Samples.three (2%positive : Unbounded) 1 = Done (p, a1, al1)
    /\ is_null p = false
    /\ numElements a1 = 4.
Proof.
  destruct (Reserve_spec Z 4 Samples.three (2%positive : Unbounded) 1
              well_formed_three) as [_ Hspec].
  destruct (Hspec ltac:(lia) ltac:(simpl; lia))
    as (p & a1 & al1 & He & Hnull & _ & Hok).
  exists p, a1, al1. split; [exact He|].
  destruct (is_null p) eqn:Hp.
  - exfalso. destruct (proj1 Hnull eq_refl) as [Hgrow _]. simpl in Hgrow. lia.
  - split; [reflexivity|]. destruct (Hok eq_refl) as (_ & Hn & _). exact Hn.
Defined.

(** C6 as the specification states it fails: with an allocator that is
    never exhausted, [Reserve(0)] returns null. *)
Lemma Reserve_of_nothing_returns_null :
  ~ (never_fails Unbounded ->
     exists p a1 al1,
       ArrayList.Reserve Z 4 Samples.three (2%positive : Unbounded) 0 = Done (p, a1, al1)
       /\ is_null p = false).
Proof.
  intros Hclaim.
  destruct Hclaim as (p & a1 & al1 & He & Hp).
  { intros al n. discriminate. }
  vm_compute in He. injection He as <- <- <-. discriminate Hp.
Qed.

Lemma run_invariants_witness :
  ArrayList.run Z 4 Samples.calls empty (1%positive : Unbounded)
  = Done (Samples.trace, 2%positive)
  /\ exists a3,
       states Z empty Samples.trace !! 3%nat = Some a3
       /\ 0 <= numElements a3 <= capacity a3
       /\ numElements a3 = 0 + net Z (take 3 Samples.trace).
Proof.
  assert (Hrun : ArrayList.run Z 4 Samples.calls empty (1%positive : Unbounded)
                 = Done (Samples.trace, 2%positive)) by (vm_compute; reflexivity).
  split; [exact Hrun|].
  destruct (run_invariants Z 4 Samples.calls empty (1%positive : Unbounded))
    as [_ Hinv].
  - destruct (well_formed_empty Z 4) as [He _]. exact He.
  - unfold Samples.calls. repeat constructor; unfold uint32; lia.
  - destruct (Hinv Samples.trace 2%positive Hrun) as [_ Hs].
    eexists. split; [reflexivity|].
    destruct (Hs 3%nat _ eq_refl) as (Hrange & Hnet & _).
    split; [exact Hrange | exact Hnet].
Defined.

Lemma Add_five_times_witness :
  exists tr al',
    ArrayList.run Z 4 [OpAdd Z 1; OpAdd Z 2; OpAdd Z 3; OpAdd Z 4; OpAdd Z 5]
      empty (1%positive : Unbounded) = Done (tr, al')
    /\ map (fun '(gain, a) => (gain, numElements a, capacity a)) tr
       = [(1, 1, 4); (1, 2, 4); (1, 3, 4); (1, 4, 4); (1, 5, 8)].
Proof.
  destruct (Add_five_times Z 4 (1%positive : Unbounded) 1 2 3 4 5)
    as (tr & al' & Hr & _ & Hm & _).
  - intros al n. discriminate.
  - simpl. lia.
  - exists tr, al'. split; assumption.
Defined.

End ArrayListFacts.

(** ** mj::MemoryBuffer *)

Module MemoryBufferFacts.
Import MemoryBuffer.

Lemma compared_nonneg o : 0 <= compared o.
Proof.
  destruct o; simpl; try lia; apply wrap64_range.
Qed.

Lemma required_nonneg o : 0 <= required o.
Proof.
  destruct o; simpl; lia.
Qed.

(** The size a call compares is the number of bytes it asks for, unless
    the product for an array does not fit [size_t]. *)
Lemma compared_required o : required o < 2 ^ 64 -> compared o = required o.
Proof.
  intros Hfits. destruct o; simpl in *; try reflexivity.
  apply wrap64_small. lia.
Qed.

Lemma step_checks_first o c m :
  step o (c, m)
  = if SizeLeft c >=? compared o
    then (fst (effect o c m), (advance c (compared o), snd (effect o c m)))
    else (refusal o, (poisoned, m)).
Proof.
  destruct o; simpl;
    unfold Read, extract, Write, WriteBytes, Skip, ReserveArrayUnaligned, NewUnaligned;
    destruct (SizeLeft c >=? _); reflexivity.
Qed.

Lemma length_zero_nil {X : Type} (l : list X) : Z.of_nat (length l) = 0 -> l = [].
Proof. destruct l; simpl; [reflexivity | lia]. Qed.

Lemma step_poisoned o m : step o (poisoned, m) = (refusal o, (poisoned, m)).
Proof.
  rewrite step_checks_first. change (SizeLeft poisoned) with 0.
  pose proof (compared_nonneg o) as Hreq.
  destruct (Z.eq_dec (compared o) 0) as [Hz|Hnz].
  - rewrite Hz. simpl (0 >=? 0).
    destruct o; simpl in *;
      try (apply length_zero_nil in Hz; subst); reflexivity.
  - destruct (0 >=? compared o) eqn:E; [lia | reflexivity].
Qed.

Lemma run_poisoned ops m :
  run ops (poisoned, m) = (map refusal ops, (poisoned, m)).
Proof.
  induction ops as [|o ops IH]; cbn [run map]; [reflexivity|].
  rewrite step_poisoned, IH. reflexivity.
Qed.

Lemma run_app ops1 ops2 st :
  run (ops1 ++ ops2) st
  = let '(rs1, st1) := run ops1 st in
    let '(rs2, st2) := run ops2 st1 in
    (rs1 ++ rs2, st2).
Proof.
  revert st. induction ops1 as [|o ops1 IH]; intros st; cbn [run app].
  - destruct (run ops2 st) as [rs2 st2]. reflexivity.
  - destruct (step o st) as [r st1]. rewrite IH.
    destruct (run ops1 st1) as [rs1 st2].
    destruct (run ops2 st2) as [rs2 st3]. reflexivity.
Qed.

Lemma advance_in_range c n :
  0 <= position c <= end_ c -> end_ c < 2 ^ 64 -> 0 <= n <= SizeLeft c ->
  position (advance c n) = position c + n
  /\ end_ (advance c n) = end_ c
  /\ SizeLeft (advance c n) = SizeLeft c - n.
Proof.
  intros Hp He Hn. unfold SizeLeft in *. unfold advance. simpl.
  rewrite (wrap64_small (end_ c - position c)) in * by lia.
  rewrite (wrap64_small (position c + n)) by lia.
  rewrite wrap64_small by lia. lia.
Qed.

(** C3.  [ReserveArrayUnaligned<T>(numElements)] with [sizeof(T) = 8] and
    [numElements = 2 ^ 61 + 1], on a cursor with 16 bytes left.  The array
    takes [2 ^ 64 + 8] bytes, which are not left; the call computes the
    product in [size_t], where it wraps around to 8, compares
    [SizeLeft()] with 8, returns the position, not null, moves the
    position 8 bytes forward, and [Good()] stays true. *)
Theorem ReserveArrayUnaligned_of_too_many :
  SizeLeft (of_size 4096 16) = 16
  /\ required (OpReserveArray 8 2305843009213693953) = 18446744073709551624
  /\ compared (OpReserveArray 8 2305843009213693953) = 8
  /\ ReserveArrayUnaligned (of_size 4096 16) 8 2305843009213693953
     = (4096, mkMemoryBuffer 4112 4104)
  /\ (forall m,
        run [OpReserveArray 8 2305843009213693953] (of_size 4096 16, m)
        = ([RPointer 4096], (mkMemoryBuffer 4112 4104, m)))
  /\ Good (mkMemoryBuffer 4112 4104) = true.
Proof.
  split; [vm_compute; reflexivity|]. split; [vm_compute; reflexivity|].
  split; [vm_compute; reflexivity|]. split; [vm_compute; reflexivity|].
  split; [|vm_compute; reflexivity].
  intros m. cbn [run step].
  replace (ReserveArrayUnaligned (of_size 4096 16) 8 2305843009213693953)
    with (4096, mkMemoryBuffer 4112 4104) by (vm_compute; reflexivity).
  reflexivity.
Qed.

(** X16.  Once a call of a sequence has been refused (what it compares
    with [SizeLeft()] exceeds it), that call and every later call,
    whatever its size, hands back what a refused call hands back (the
    object untouched, or a null pointer), the memory stays as the calls
    before the refused one left it, the cursor is cleared and [Good()] is
    false. *)
Theorem failure_is_sticky ops1 o ops2 c m rs1 c1 m1 :
  run ops1 (c, m) = (rs1, (c1, m1)) ->
  SizeLeft c1 < compared o ->
  run (ops1 ++ o :: ops2) (c, m)
  = (rs1 ++ refusal o :: map refusal ops2, (poisoned, m1))
  /\ Good (fst (snd (run (ops1 ++ o :: ops2) (c, m)))) = false.
Proof.
  intros Hrun Hfail.
  assert (Hall : run (ops1 ++ o :: ops2) (c, m)
                 = (rs1 ++ refusal o :: map refusal ops2, (poisoned, m1))).
  { rewrite run_app, Hrun. cbn [run].
    rewrite step_checks_first.
    destruct (SizeLeft c1 >=? compared o) eqn:E; [lia|].
    rewrite run_poisoned. reflexivity. }
  split; [exact Hall|]. rewrite Hall. reflexivity.
Qed.

(** The scenario of the specification: over a range of 8 bytes, writing a
    4-byte value succeeds, writing an 8-byte value then fails, and the read
    after it fails too. *)
Lemma failure_is_sticky_witness :
  let m := fun _ : Z => "000"%byte in
  let four := ["001"; "002"; "003"; "004"]%byte in
  let eight := (four ++ four)%list in
  exists m1,
    run [OpWrite four; OpWrite eight; OpRead ["009"%byte]] (of_size 4096 8, m)
    = ([RNothing; RNothing; RObject ["009"%byte]], (poisoned, m1))
    /\ m1 4099 = "004"%byte /\ m1 4100 = "000"%byte.
Proof.
  intros m four eight.
  destruct (failure_is_sticky [OpWrite four] (OpWrite eight) [OpRead ["009"%byte]]
              (of_size 4096 8) m [RNothing]
              (mkMemoryBuffer 4104 4100) (store m 4096 four)) as [Hrun _].
  - reflexivity.
  - vm_compute. reflexivity.
  - eexists. split; [exact Hrun|]. split; reflexivity.
Defined.

(** C10.  A cursor built with no range is cleared from the start:
    [Good()] is false, [SizeLeft()] is 0, and every [Read], [Write] or
    [Skip] of at least one byte fails: it leaves the cursor cleared, the
    memory and the object untouched. *)
Theorem default_is_poisoned :
  Good default = false
  /\ SizeLeft default = 0
  /\ (forall m t,
        t <> [] ->
        Read default m t = (t, poisoned)
        /\ extract default m t = (t, poisoned)
        /\ Write default m t = (m, poisoned)
        /\ WriteBytes default m t = (m, poisoned))
  /\ (forall numBytes, numBytes <> 0%N -> Skip default numBytes = poisoned).
Proof.
  split; [reflexivity|]. split; [reflexivity|]. split.
  - intros m t Ht.
    assert (Hf : (SizeLeft default >=? Z.of_nat (length t)) = false).
    { change (SizeLeft default) with 0. destruct t; [contradiction|]. simpl length. lia. }
    unfold Read, extract, Write, WriteBytes. rewrite Hf. auto.
  - intros numBytes Hn.
    assert (Hf : (SizeLeft default >=? Z.of_N numBytes) = false).
    { change (SizeLeft default) with 0. lia. }
    unfold Skip. rewrite Hf. reflexivity.
Qed.

Lemma default_is_poisoned_witness :
  Read default (fun _ => "000"%byte) ["007"%byte] = (["007"%byte], poisoned)
  /\ Skip default 1 = poisoned.
Proof.
  destruct default_is_poisoned as (_ & _ & Hrw & Hskip).
  split.
  - destruct (Hrw (fun _ => "000"%byte) ["007"%byte] ltac:(discriminate)) as [Hr _].
    exact Hr.
  - apply Hskip. discriminate.
Defined.

End MemoryBufferFacts.

(** * Further properties *)

(** ** mj::ArrayList: insertion, appending, assignment, element access *)

Module ArrayListMore.
Import ArrayList ArrayListFacts.

Section More.

Context {A : Type} `{Allocator A}.
Variable T : Type.
Variable TSize : positive.

Local Abbreviation len l := (Z.of_nat (length l)) (only parsing).
Local Abbreviation Insert := (Insert T TSize).
Local Abbreviation Erase := (Erase T TSize).
Local Abbreviation Add := (Add T TSize).
Local Abbreviation Assign := (Assign T TSize).
Local Abbreviation inv := (inv T TSize).
Local Abbreviation well_formed := (well_formed T TSize).
Local Abbreviation subscript := (subscript T).
Local Abbreviation expanded := (expanded T TSize).

(** *** Element access *)

Lemma subscript_live (a : ArrayList T) i :
  inv a -> 0 <= i < numElements a ->
  exists x, elements a !! Z.to_nat i = Some x /\ subscript a i = Done x.
Proof.
  intros ((Hn0 & Hn) & _ & _ & Hi & _) Hlt.
  unfold ArrayList.subscript, ptr_add. simpl. rewrite Hi, Z.add_0_l.
  destruct (_ && _) eqn:E; [|lia].
  destruct (lookup_lt_is_Some_2 (storage a) (Z.to_nat i) ltac:(lia)) as [x Hx].
  exists x. rewrite Hx. split; [|reflexivity].
  unfold elements. rewrite lookup_take_lt by lia. exact Hx.
Qed.

Lemma subscript_same (a a1 : ArrayList T) i j :
  inv a -> inv a1 -> 0 <= i < numElements a -> 0 <= j < numElements a1 ->
  elements a1 !! Z.to_nat j = elements a !! Z.to_nat i ->
  subscript a1 j = subscript a i.
Proof.
  intros Hinv Hinv1 Hi Hj He.
  destruct (subscript_live a i Hinv Hi) as (x & Hx & ->).
  destruct (subscript_live a1 j Hinv1 Hj) as (y & Hy & ->).
  congruence.
Qed.

Lemma subscript_is (a : ArrayList T) i x :
  inv a -> 0 <= i < numElements a ->
  elements a !! Z.to_nat i = Some x -> subscript a i = Done x.
Proof.
  intros Hinv Hi He. destruct (subscript_live a i Hinv Hi) as (y & Hy & ->).
  congruence.
Qed.

(** *** Insert *)

Lemma Insert_rec_within d a al position src num :
  well_formed a -> 0 <= position <= numElements a -> 1 <= num -> num <= len src ->
  numElements a + num <= capacity a ->
  exists a1,
    ArrayList.Insert_rec T TSize d a al position (Some (Outside src)) num
    = Done (ptr_add (pData a) position, a1, al)
    /\ is_null (ptr_add (pData a) position) = false
    /\ well_formed a1 /\ pData a1 = pData a /\ capacity a1 = capacity a
    /\ numElements a1 = numElements a + num
    /\ elements a1
       = take (Z.to_nat position) (elements a)
         ++ (Some <$> take (Z.to_nat num) src)
         ++ drop (Z.to_nat position) (elements a).
Proof.
  intros [Hinv Hlen] Hp Hnum Hsrc Hfit.
  pose proof Hinv as ((Hn0 & Hn) & (Hl & Hc) & Hb & Hi & Hblk).
  pose proof (Insert_rec_fits T TSize d a al position src num Hi Hb Hp Hnum
                Hfit ltac:(lia) ltac:(lia) Hsrc) as Hr.
  eexists. split; [exact Hr|].
  apply Insert_rec_fits_inv in Hr as (Hinv1 & Hc1 & Hn1 & Hnull & He1);
    [| assumption | lia | lia | lia | rewrite wrap32_small by lia; lia ].
  split; [exact Hnull|]. split.
  { split; [exact Hinv1|]. simpl. rewrite length_inserted by lia. lia. }
  simpl in *. auto.
Qed.

Lemma lookup_inserted (els : list (option T)) (src : list T) (position num : Z) :
  0 <= position <= len els -> 0 <= num <= len src ->
  let els1 := take (Z.to_nat position) els
              ++ (Some <$> take (Z.to_nat num) src)
              ++ drop (Z.to_nat position) els in
  (forall i, 0 <= i < position -> els1 !! Z.to_nat i = els !! Z.to_nat i)
  /\ (forall i, 0 <= i < num ->
        els1 !! Z.to_nat (position + i) = Some <$> src !! Z.to_nat i)
  /\ (forall i, position <= i < len els ->
        els1 !! Z.to_nat (i + num) = els !! Z.to_nat i).
Proof.
  intros Hp Hnum els1. subst els1. repeat split; intros i Hi.
  - lookup_norm.
  - replace (Z.to_nat (position + i)) with (Z.to_nat position + Z.to_nat i)%nat by lia.
    lookup_norm.
  - replace (Z.to_nat (i + num)) with (Z.to_nat i + Z.to_nat num)%nat by lia.
    lookup_norm.
Qed.

(** X1.  [Insert(position, pSrc, num)] on a well-formed array.  With
    [num = 0] it returns [end()] and changes nothing; with a null source,
    or with [position > count], it returns null and changes nothing.
    Otherwise, for a source [pSrc] that lies outside the storage of the
    array, when [(count + num) * sizeof(T)] fits 32 bits and the elements
    fit the capacity or the allocator grants the growth, it returns the
    non-null pointer to slot [position], the array is well formed again
    and holds the elements before [position], then the first [num] source
    elements, then the elements that were at and behind [position];
    [operator[]] reads them back at their new places.  When the elements
    fit the capacity neither [pData], the capacity nor the allocator
    change. *)
Theorem Insert_spec a al position src num :
  well_formed a ->
  (forall pSrc, Insert a al position pSrc 0 = Done (end_ T a, a, al))
  /\ (num <> 0 -> Insert a al position None num = Done (nullptr, a, al))
  /\ (num <> 0 -> numElements a < position ->
      forall pSrc, Insert a al position pSrc num = Done (nullptr, a, al))
  /\ (0 <= position <= numElements a -> 1 <= num -> num <= len src ->
      (numElements a + num) * Z.pos TSize < 2 ^ 32 ->
      numElements a + num <= capacity a
      \/ fst (Allocate al ((numElements a + num) * Z.pos TSize)) <> None ->
      exists a1 al1,
        Insert a al position (Some (Outside src)) num
        = Done (ptr_add (pData a1) position, a1, al1)
        /\ is_null (ptr_add (pData a1) position) = false
        /\ well_formed a1
        /\ numElements a1 = numElements a + num
        /\ elements a1
           = take (Z.to_nat position) (elements a)
             ++ (Some <$> take (Z.to_nat num) src)
             ++ drop (Z.to_nat position) (elements a)
        /\ (forall i, 0 <= i < position -> subscript a1 i = subscript a i)
        /\ (forall i x, 0 <= i < num -> src !! Z.to_nat i = Some x ->
              subscript a1 (position + i) = Done (Some x))
        /\ (forall i, position <= i < numElements a ->
              subscript a1 (i + num) = subscript a i)
        /\ (numElements a + num <= capacity a ->
            pData a1 = pData a /\ capacity a1 = capacity a /\ al1 = al)).
Proof.
  intros Hwf. split; [intros pSrc; reflexivity|].
  split; [intros Hnum; apply Insert_refuses_null; exact Hnum|].
  split.
  { intros Hnum Hp [pSrc|];
      [apply Insert_refuses_position; assumption
      | apply Insert_refuses_null; exact Hnum]. }
  intros Hp Hnum Hsrc Hbytes Hroom.
  pose proof Hwf as [Hinv Hlen].
  pose proof Hinv as ((Hn0 & Hn) & (Hl & Hc) & Hb & Hi & Hblk).
  pose proof (length_elements T a ltac:(lia)) as Hle.
  assert (Hmain : exists a1 al1,
    Insert a al position (Some (Outside src)) num = Done (ptr_add (pData a1) position, a1, al1)
    /\ is_null (ptr_add (pData a1) position) = false
    /\ well_formed a1
    /\ numElements a1 = numElements a + num
    /\ elements a1
       = take (Z.to_nat position) (elements a)
         ++ (Some <$> take (Z.to_nat num) src)
         ++ drop (Z.to_nat position) (elements a)
    /\ (numElements a + num <= capacity a ->
        pData a1 = pData a /\ capacity a1 = capacity a /\ al1 = al)).
  { destruct (Z.le_gt_cases (numElements a + num) (capacity a)) as [Hfit|Hgrow].
    - destruct (Insert_rec_within 1 a al position src num Hwf Hp Hnum Hsrc Hfit)
        as (a1 & Hr & Hnull & Hwf1 & Hp1 & Hc1 & Hn1 & He1).
      exists a1, al. rewrite Hp1. auto 10.
    - destruct Hroom as [Hfit|Hal]; [lia|].
      destruct (Allocate al ((numElements a + num) * Z.pos TSize)) as [[b|] al1] eqn:Hal';
        [|contradiction].
      assert (Hw : wrap32 (numElements a + num) = numElements a + num)
        by (apply wrap32_small; nia).
      assert (Hwb : wrap32 ((numElements a + num) * Z.pos TSize)
                    = (numElements a + num) * Z.pos TSize)
        by (apply wrap32_small; nia).
      destruct (expanded_well_formed T TSize a b (numElements a + num) Hinv
                  ltac:(lia) ltac:(lia) Hbytes) as [Hwfe Hee].
      destruct (Insert_rec_within 0 (expanded a b (numElements a + num))
                  (Free al1 (pData a)) position src num Hwfe
                  ltac:(simpl; lia) Hnum Hsrc ltac:(simpl; lia))
        as (a1 & Hr & Hnull & Hwf1 & Hp1 & Hc1 & Hn1 & He1).
      exists a1, (Free al1 (pData a)).
      rewrite (Insert_grows T TSize a al position (Outside src) num b al1), Hw;
        [| lia | lia | lia | rewrite Hw, Hwb; exact Hal' | lia
         | rewrite Hw, slots_of_bytes_exact by lia; lia ].
      cbn [left_behind]. rewrite Hp1. rewrite Hee in He1. simpl in Hn1.
      split; [exact Hr|]. split; [exact Hnull|]. split; [exact Hwf1|].
      split; [exact Hn1|]. split; [exact He1|]. intros Hfit. lia. }
  destruct Hmain as (a1 & al1 & Hr & Hnull & Hwf1 & Hn1 & He1 & Hsame).
  exists a1, al1. split; [exact Hr|]. split; [exact Hnull|].
  split; [exact Hwf1|]. split; [exact Hn1|]. split; [exact He1|].
  destruct Hwf1 as [Hinv1 _].
  assert (Hpl : 0 <= position <= len (elements a)) by lia.
  assert (Hnl : 0 <= num <= len src) by lia.
  destruct (lookup_inserted (elements a) src position num Hpl Hnl)
    as (Hbefore & Hnew & Hafter).
  split; [|split; [|split; [|exact Hsame]]].
  - intros i Hlt. apply subscript_same; try assumption; try lia.
    rewrite He1. apply Hbefore. lia.
  - intros i x Hlt Hx. apply subscript_is; try assumption; try lia.
    rewrite He1. etransitivity; [apply Hnew; lia | rewrite Hx; reflexivity].
  - intros i Hlt. apply subscript_same; try assumption; try lia.
    rewrite He1. apply Hafter. unfold slot in *. lia.
Qed.


(** *** Insert from the array itself *)

Lemma subscript_slot (a : ArrayList T) j :
  index (pData a) = 0 -> 0 <= j < len (storage a) ->
  exists x, storage a !! Z.to_nat j = Some x /\ subscript a j = Done x.
Proof.
  intros Hi Hj.
  unfold ArrayList.subscript, ptr_add. simpl. rewrite Hi, Z.add_0_l.
  destruct (_ && _) eqn:E; [|lia].
  destruct (lookup_lt_is_Some_2 (storage a) (Z.to_nat j) ltac:(lia)) as [x Hx].
  exists x. rewrite Hx. auto.
Qed.

Lemma subscript_slots (a a1 : ArrayList T) j j1 :
  index (pData a) = 0 -> index (pData a1) = 0 ->
  0 <= j < len (storage a) -> 0 <= j1 < len (storage a1) ->
  storage a1 !! Z.to_nat j1 = storage a !! Z.to_nat j ->
  subscript a1 j1 = subscript a j.
Proof.
  intros Hi Hi1 Hj Hj1 He.
  destruct (subscript_slot a j Hi Hj) as (x & Hx & ->).
  destruct (subscript_slot a1 j1 Hi1 Hj1) as (y & Hy & ->).
  congruence.
Qed.

Lemma length_shifted (s : list (slot T)) (count position num : Z) :
  0 <= position <= count -> 0 <= num -> count + num <= len s ->
  length (shifted T s count position num) = length s.
Proof.
  intros Hp Hnum Hfit. unfold shifted. list_len. lia.
Qed.

Lemma lookup_shifted (s : list (slot T)) (count position num j : Z) :
  0 <= position <= count -> 0 <= num -> count + num <= len s -> 0 <= j ->
  shifted T s count position num !! Z.to_nat j
  = s !! Z.to_nat (if j <? position + num then j
                   else if j <? count + num then j - num else j).
Proof.
  intros Hp Hnum Hfit Hj. unfold shifted.
  destruct (Z.ltb_spec j (position + num)).
  { lookup_norm. }
  destruct (Z.ltb_spec j (count + num)).
  { lookup_norm. }
  lookup_norm.
Qed.

Lemma length_inserted_inside (s : list (slot T)) (count position i num : Z) :
  0 <= position <= count -> 0 <= num -> count + num <= len s ->
  0 <= i -> i + num <= len s ->
  length (inserted_inside T s count position i num) = length s.
Proof.
  intros Hp Hnum Hfit Hi Hin. unfold inserted_inside.
  pose proof (length_shifted s count position num Hp Hnum Hfit) as Hl.
  list_len. lia.
Qed.

Lemma lookup_inserted_inside (s : list (slot T)) (count position i num j : Z) :
  0 <= position <= count -> 0 <= num -> count + num <= len s ->
  0 <= i -> i + num <= len s -> 0 <= j ->
  inserted_inside T s count position i num !! Z.to_nat j
  = shifted T s count position num
      !! Z.to_nat (if (position <=? j) && (j <? position + num)
                   then i + (j - position) else j).
Proof.
  intros Hp Hnum Hfit Hi Hin Hj. unfold inserted_inside.
  pose proof (length_shifted s count position num Hp Hnum Hfit) as Hl.
  set (s1 := shifted T s count position num) in *.
  destruct (Z.leb_spec position j); simpl.
  - destruct (Z.ltb_spec j (position + num)).
    + lookup_norm.
    + lookup_norm.
  - lookup_norm.
Qed.

Lemma Insert_rec_fits_inside d a al position i num :
  index (pData a) = 0 ->
  len (storage a) * Z.pos TSize < 2 ^ 32 ->
  0 <= position <= numElements a -> 1 <= num ->
  numElements a + num <= capacity a -> numElements a + num <= len (storage a) ->
  numElements a + num < 2 ^ 32 ->
  0 <= i -> i + num <= len (storage a) ->
  i + num <= position \/ position + num <= i ->
  ArrayList.Insert_rec T TSize d a al position (Some (Inside i)) num
  = Done (ptr_add (pData a) position,
          mkArrayList (pData a)
            (inserted_inside T (storage a) (numElements a) position i num)
            (numElements a + num) (capacity a),
          al).
Proof.
  intros Hi Hb Hp Hnum Hcap Hfit Hr Hi0 Hin Hdisjoint.
  assert (Hw : wrap32 (numElements a + num) = numElements a + num)
    by (apply wrap32_small; lia).
  assert (Hm : wrap32 (numElements a - position) = numElements a - position)
    by (apply wrap32_small; lia).
  assert (Hb1 : wrap32 ((numElements a - position) * Z.pos TSize)
                = (numElements a - position) * Z.pos TSize)
    by (apply wrap32_small; nia).
  assert (Hb2 : wrap32 (num * Z.pos TSize) = num * Z.pos TSize)
    by (apply wrap32_small; nia).
  assert (Hdisj : (i <? position + num) && (position <? i + num) = false) by lia.
  destruct d; cbn [ArrayList.Insert_rec ArrayList.copy_in];
    unfold end_, begin, Size, ptr_add; cbn [block index];
    rewrite Hi, Hw, Hm, Hb1, Hb2, !Z.add_0_l;
    (destruct (Z.eqb_spec num 0); [lia|]);
    (destruct (Z.ltb_spec (numElements a) position); [lia|]);
    (destruct (Z.leb_spec (numElements a + num) (capacity a)); [|lia]);
    (rewrite copy_bytes_elements by lia);
    rewrite Z.div_mul, Hdisj by lia;
    (rewrite copy_bytes_elements by (list_len; lia));
    unfold inserted_inside, shifted;
    replace (numElements a + num + - (numElements a - position))
      with (position + num) by lia;
    replace (position + num + (numElements a - position))
      with (numElements a + num) by lia;
    reflexivity.
Qed.

(** X18.  [Insert(position, pSrc, num)] on a well-formed array, with
    [pSrc] pointing at the slot [i] of the array's own storage,
    [position <= count] and [1 <= num].  When the elements fit the
    capacity the [memmove] of the tail runs before the [memcpy] reads the
    source.  If the [num] slots at [i] lie in the storage and do not
    overlap the [num] slots at [position], the call returns the pointer to
    [position]; the elements before [position] stay, the elements from
    [position] on are found [num] slots further, and the slot
    [position + k] holds what the slot [i + k] held before the call when
    the source lies before [position], and what the [memmove] left in the
    slot [i + k] when it lies behind: the element that was at
    [i + k - num] when [i + k < count + num], and what the slot [i + k]
    held otherwise.  If the two ranges overlap the [memcpy] has no defined
    result.  When the elements do not fit and the allocator grants the
    growth, the storage is given back before the [memcpy] reads it: the
    call has no defined result. *)
Theorem Insert_from_the_array a al position i num :
  well_formed a -> 0 <= position <= numElements a -> 1 <= num ->
  (numElements a + num <= capacity a -> 0 <= i -> i + num <= capacity a ->
   i + num <= position \/ position + num <= i ->
   exists a1,
     Insert a al position (Some (Inside i)) num
     = Done (ptr_add (pData a) position, a1, al)
     /\ well_formed a1 /\ pData a1 = pData a /\ capacity a1 = capacity a
     /\ numElements a1 = numElements a + num
     /\ (forall j, 0 <= j < position -> subscript a1 j = subscript a j)
     /\ (forall k, 0 <= k < num ->
           subscript a1 (position + k)
           = subscript a (if i + num <=? position then i + k
                          else if i + k <? numElements a + num then i + k - num
                          else i + k))
     /\ (forall j, position <= j < numElements a ->
           subscript a1 (j + num) = subscript a j))
  /\ (numElements a + num <= capacity a ->
      i < position + num -> position < i + num ->
      Insert a al position (Some (Inside i)) num = Undefined)
  /\ (capacity a < numElements a + num ->
      (numElements a + num) * Z.pos TSize < 2 ^ 32 ->
      fst (Allocate al ((numElements a + num) * Z.pos TSize)) <> None ->
      Insert a al position (Some (Inside i)) num = Undefined).
Proof.
  intros Hwf Hp Hnum.
  pose proof Hwf as [Hinv Hlen].
  pose proof Hinv as ((Hn0 & Hn) & (Hl & Hc) & Hb & Hi & Hblk).
  split; [|split].
  - intros Hfit Hi0 Hin Hdisjoint.
    unfold ArrayList.Insert.
    rewrite Insert_rec_fits_inside by (assumption || lia).
    eexists. split; [reflexivity|].
    set (s2 := inserted_inside T (storage a) (numElements a) position i num).
    assert (Hl2 : length s2 = length (storage a))
      by (apply length_inserted_inside; lia).
    assert (Hlook : forall j, 0 <= j ->
              s2 !! Z.to_nat j
              = storage a
                  !! Z.to_nat
                       (let j1 := if (position <=? j) && (j <? position + num)
                                  then i + (j - position) else j in
                        if j1 <? position + num then j1
                        else if j1 <? numElements a + num then j1 - num else j1)).
    { intros j Hj. subst s2.
      rewrite lookup_inserted_inside by lia.
      apply lookup_shifted; try lia.
      destruct (Z.leb_spec position j);
        destruct (Z.ltb_spec j (position + num)); simpl; lia. }
    split.
    { unfold ArrayList.well_formed, ArrayList.inv. simpl. rewrite Hl2.
      repeat split; (lia || exact Hblk). }
    cbn [pData capacity numElements].
    split; [reflexivity|]. split; [reflexivity|]. split; [reflexivity|].
    split; [|split].
    + intros j Hj. apply subscript_slots; simpl; try assumption; try lia.
      rewrite (Hlook j) by lia. cbv zeta.
      destruct (Z.leb_spec position j); [lia|]. simpl.
      destruct (Z.ltb_spec j (position + num)); [reflexivity | lia].
    + intros k Hk.
      assert (Hidx : 0 <= (if i + num <=? position then i + k
                           else if i + k <? numElements a + num then i + k - num
                           else i + k) < len (storage a)).
      { destruct (Z.leb_spec (i + num) position); [lia|].
        destruct (Z.ltb_spec (i + k) (numElements a + num)); lia. }
      apply subscript_slots; simpl; try assumption; try lia.
      rewrite (Hlook (position + k)) by lia. cbv zeta.
      destruct (Z.leb_spec position (position + k)); [|lia].
      destruct (Z.ltb_spec (position + k) (position + num)); [|lia]. simpl.
      replace (i + (position + k - position)) with (i + k) by lia.
      destruct (Z.leb_spec (i + num) position).
      * destruct (Z.ltb_spec (i + k) (position + num)); [reflexivity | lia].
      * destruct (Z.ltb_spec (i + k) (position + num)); [lia | reflexivity].
    + intros j Hj. apply subscript_slots; simpl; try assumption; try lia.
      rewrite (Hlook (j + num)) by lia. cbv zeta.
      destruct (Z.leb_spec position (j + num)); [|lia].
      destruct (Z.ltb_spec (j + num) (position + num)); [lia|]. simpl.
      destruct (Z.ltb_spec (j + num) (position + num)); [lia|].
      destruct (Z.ltb_spec (j + num) (numElements a + num)); [|lia].
      f_equal. lia.
  - intros Hfit Hlo Hhi.
    assert (Hw : wrap32 (numElements a + num) = numElements a + num)
      by (apply wrap32_small; lia).
    destruct (Insert a al position (Some (Inside i)) num) as [[[p a1] al1]| |] eqn:Hr.
    + exfalso.
      apply (Insert_rec_fits_inversion T TSize) in Hr
        as (s1 & s2 & _ & Hc2 & _); try assumption; try lia.
      cbn [ArrayList.copy_in] in Hc2.
      rewrite wrap32_small, Z.div_mul in Hc2 by nia.
      destruct (_ && _) eqn:E in Hc2; [discriminate | lia].
    + reflexivity.
    + exfalso. exact (Insert_total T TSize _ _ _ _ _ Hr).
  - intros Hgrow Hbytes Hal.
    destruct (Allocate al ((numElements a + num) * Z.pos TSize)) as [[b|] al1] eqn:Hal';
      [|contradiction].
    assert (Hw : wrap32 (numElements a + num) = numElements a + num)
      by (apply wrap32_small; nia).
    assert (Hwb : wrap32 ((numElements a + num) * Z.pos TSize)
                  = (numElements a + num) * Z.pos TSize)
      by (apply wrap32_small; nia).
    destruct (expanded_well_formed T TSize a b (numElements a + num) Hinv
                ltac:(lia) ltac:(lia) Hbytes) as [[Hinve Hlene] _].
    rewrite (Insert_grows T TSize a al position (Inside i) num b al1), Hw;
      [| lia | lia | lia | rewrite Hw, Hwb; exact Hal' | lia
       | rewrite Hw, slots_of_bytes_exact by lia; lia ].
    cbn [left_behind].
    destruct (ArrayList.Insert_rec T TSize 0 _ _ position (Some Stale) num)
      as [[[p a1] al2]| |] eqn:Hr.
    + exfalso.
      apply (Insert_rec_fits_inversion T TSize) in Hr
        as (s1 & s2 & _ & Hc2 & _); try assumption; simpl; try lia.
      discriminate Hc2.
    + reflexivity.
    + exfalso. revert Hr. apply Insert_rec_fits_defined. simpl. lia.
Qed.

(** *** Add *)



(** *** Calls of Add that fit the capacity; Clear *)

Lemma Adds_fit ts : forall a al,
  well_formed a -> numElements a + len ts <= capacity a ->
  exists tr a',
    run T TSize (OpAdd T <$> ts) a al = Done (tr, al)
    /\ last (states T a tr) = Some a'
    /\ Forall (fun ga => fst ga = 1) tr
    /\ well_formed a' /\ pData a' = pData a /\ capacity a' = capacity a
    /\ numElements a' = numElements a + len ts
    /\ elements a' = elements a ++ (Some <$> ts).
Proof.
  induction ts as [|t ts IH]; intros a al Hwf Hfit.
  - exists [], a. simpl. rewrite app_nil_r.
    repeat split; try reflexivity; try constructor; try apply Hwf; lia.
  - simpl length in Hfit.
    destruct (Add_appends T TSize a al t Hwf ltac:(lia))
      as (a1 & Hr & Hwf1 & Hp1 & Hc1 & Hn1 & He1).
    destruct (IH a1 al Hwf1 ltac:(lia))
      as (tr & a' & Hrun & Hlast & Hall & Hwf' & Hp' & Hc' & Hn' & He').
    exists ((1, a1) :: tr), a'.
    split.
    { cbn [fmap list_fmap ArrayList.run ArrayList.apply].
      rewrite Hr. cbn [ArrayList.run ArrayList.apply].
      change (list_fmap T (op T) (OpAdd T) ts) with (OpAdd T <$> ts).
      rewrite Hrun. reflexivity. }
    split; [exact Hlast|]. split; [constructor; [reflexivity | exact Hall]|].
    split; [exact Hwf'|]. split; [congruence|]. split; [congruence|].
    split; [simpl length; lia|].
    rewrite He', He1, <- app_assoc. reflexivity.
Qed.

Lemma Clear_well_formed (a : ArrayList T) :
  well_formed a -> well_formed (Clear T a).
Proof.
  intros (((Hn0 & Hn) & (Hl & Hc) & Hb & Hi & Hblk) & Hlen).
  unfold ArrayList.well_formed, ArrayList.inv, Clear, set_numElements. simpl.
  repeat split; (lia || assumption).
Qed.

(** X3.  Calls of [Add] that fit the capacity of a well-formed array all
    return true, never call the allocator and keep [pData] and the
    capacity, so that pointers into the array stay valid; the array then
    holds the old elements followed by the added ones.  [Clear()] keeps
    the storage and the capacity and leaves no element: after it, as many
    calls of [Add] as the capacity holds reuse the storage. *)
Theorem Add_within_capacity a al ts :
  well_formed a ->
  (numElements a + len ts <= capacity a ->
   exists tr a',
     run T TSize (OpAdd T <$> ts) a al = Done (tr, al)
     /\ last (states T a tr) = Some a'
     /\ Forall (fun ga => fst ga = 1) tr
     /\ pData a' = pData a /\ capacity a' = capacity a
     /\ elements a' = elements a ++ (Some <$> ts))
  /\ (len ts <= capacity a ->
      exists tr a',
        run T TSize (OpAdd T <$> ts) (Clear T a) al = Done (tr, al)
        /\ last (states T (Clear T a) tr) = Some a'
        /\ Forall (fun ga => fst ga = 1) tr
        /\ pData a' = pData a /\ capacity a' = capacity a
        /\ elements a' = Some <$> ts).
Proof.
  intros Hwf. split.
  - intros Hfit.
    destruct (Adds_fit ts a al Hwf Hfit)
      as (tr & a' & Hrun & Hlast & Hall & _ & Hp' & Hc' & _ & He').
    exists tr, a'. auto 10.
  - intros Hfit.
    destruct (Adds_fit ts (Clear T a) al (Clear_well_formed a Hwf) ltac:(simpl; lia))
      as (tr & a' & Hrun & Hlast & Hall & _ & Hp' & Hc' & _ & He').
    exists tr, a'. simpl in Hp', Hc'.
    unfold elements at 2 in He'. simpl in He'. auto 10.
Qed.

(** *** Assign and the constructor with a capacity *)

Lemma no_storage_behind_null (a : ArrayList T) :
  inv a -> is_null (pData a) = true -> numElements a = 0 /\ storage a = [].
Proof.
  intros ((Hn0 & Hn) & _ & _ & _ & Hblk) Hnull.
  apply is_null_true in Hnull.
  assert (Hl : len (storage a) = 0).
  { destruct (Z.eq_dec (len (storage a)) 0) as [|Hne]; [assumption|].
    exfalso. apply Hblk; [lia|]. rewrite Hnull. reflexivity. }
  split; [lia|]. destruct (storage a); [reflexivity | simpl in Hl; lia].
Qed.

(** X4.  [Assign(pT, length)] on a consistent array, with [length] source
    elements readable and [length * sizeof(T)] fitting 32 bits.  An array
    that has storage is destroyed first.  When the allocator then grants
    the block, [Assign] returns true and the array is well formed with
    exactly the first [length] source elements, count and capacity
    [length].  When the allocator returns null, [Assign] returns false and
    the array is left without elements and without storage: what it held
    before the call is lost. *)
Theorem Assign_spec a al src length :
  inv a -> 0 <= length -> length * Z.pos TSize < 2 ^ 32 -> length <= len src ->
  (forall b al1,
     Allocate (if is_null (pData a) then al else Free al (pData a))
       (length * Z.pos TSize) = (Some b, al1) ->
     exists a1,
       Assign a al (Some src) length = Done (true, a1, Free al1 nullptr)
       /\ well_formed a1 /\ pData a1 = Ptr (Z.pos b) 0
       /\ capacity a1 = length /\ numElements a1 = length
       /\ elements a1 = Some <$> take (Z.to_nat length) src)
  /\ (fst (Allocate (if is_null (pData a) then al else Free al (pData a))
             (length * Z.pos TSize)) = None ->
      exists a1 al1,
        Assign a al (Some src) length = Done (false, a1, al1)
        /\ pData a1 = nullptr /\ storage a1 = []
        /\ numElements a1 = 0 /\ elements a1 = []
        /\ (is_null (pData a) = false -> capacity a1 = 0)).
Proof.
  intros Hinv Hlen Hbytes Hsrc.
  set (al0 := if is_null (pData a) then al else Free al (pData a)).
  set (a0 := if is_null (pData a) then a else mkArrayList nullptr [] 0 0).
  assert (Ha0 : pData a0 = nullptr /\ storage a0 = [] /\ numElements a0 = 0).
  { subst a0. destruct (is_null (pData a)) eqn:Hnull; [|auto].
    destruct (no_storage_behind_null a Hinv Hnull) as [Hn Hs].
    apply is_null_true in Hnull. auto. }
  destruct Ha0 as (Hp0 & Hs0 & Hn0).
  assert (Hstart : (if negb (is_null (pData a)) then destroy T a al else (a, al))
                   = (a0, al0)).
  { subst a0 al0. unfold destroy. destruct (is_null (pData a)); reflexivity. }
  assert (Hwb : wrap32 (length * Z.pos TSize) = length * Z.pos TSize)
    by (apply wrap32_small; nia).
  split.
  - intros b al1 Hal.
    unfold ArrayList.Assign. rewrite Hstart.
    rewrite (Expand_success T TSize a0 al0 length b al1);
      [| rewrite Hwb; exact Hal | rewrite Hn0, Hs0; simpl; lia
       | rewrite Hn0, slots_of_bytes_exact by lia; lia ].
    unfold ArrayList.expanded, elements. rewrite Hn0, Hs0, Hp0.
    rewrite slots_of_bytes_exact by lia. cbn [pData storage capacity index].
    rewrite Hwb, Z.sub_0_r, take_nil, app_nil_l.
    rewrite (copy_bytes_elements T TSize)
      by (rewrite ?length_replicate, ?length_fmap; lia).
    match goal with
    | |- context [mkArrayList _ ?s _ _] =>
        assert (Hst : s = Some <$> take (Z.to_nat length) src)
    end.
    { change (Z.to_nat 0) with 0%nat. rewrite take_0, drop_0, Z.add_0_l.
      rewrite drop_replicate, Nat.sub_diag, fmap_take. simpl.
      rewrite app_nil_r. reflexivity. }
    rewrite Hst.
    eexists. split; [reflexivity|].
    split.
    { unfold ArrayList.well_formed, ArrayList.inv. simpl.
      rewrite length_fmap, length_take.
      replace (Z.of_nat (Z.to_nat length `min` Datatypes.length src)) with length
        by lia.
      repeat split; (lia || discriminate). }
    simpl. repeat split.
    apply take_ge. rewrite length_fmap, length_take. lia.
  - intros Hal.
    unfold ArrayList.Assign. rewrite Hstart.
    rewrite (Expand_failure T TSize a0 al0 length) by (rewrite Hwb; exact Hal).
    eexists _, _. split; [reflexivity|].
    split; [exact Hp0|]. split; [exact Hs0|]. split; [exact Hn0|].
    split; [unfold elements; rewrite Hs0; apply take_nil|].
    intros Hnn. subst a0. rewrite Hnn. reflexivity.
Qed.

(** X5.  The constructor with a capacity [cap], [cap * sizeof(T)] fitting
    32 bits.  When the allocator grants the block, the array is well
    formed and empty with capacity [cap].  The constructor does not test
    the pointer it gets: when the allocator returns null the array still
    records capacity [cap] with a null [pData], and [Add], finding
    [count < capacity], stores through the null pointer. *)
Theorem with_capacity_spec (al : A) cap :
  0 <= cap -> cap * Z.pos TSize < 2 ^ 32 ->
  (forall b al1,
     Allocate al (cap * Z.pos TSize) = (Some b, al1) ->
     exists a,
       with_capacity T TSize al cap = (a, al1)
       /\ well_formed a /\ pData a = Ptr (Z.pos b) 0
       /\ capacity a = cap /\ numElements a = 0 /\ elements a = [])
  /\ (fst (Allocate al (cap * Z.pos TSize)) = None ->
      exists a al1,
        with_capacity T TSize al cap = (a, al1)
        /\ pData a = nullptr /\ capacity a = cap /\ numElements a = 0
        /\ (0 < cap -> forall al' t, Add a al' t = Undefined)).
Proof.
  intros Hcap Hbytes.
  assert (Hwb : wrap32 (cap * Z.pos TSize) = cap * Z.pos TSize)
    by (apply wrap32_small; nia).
  split.
  - intros b al1 Hal. unfold with_capacity. rewrite Hwb, Hal.
    rewrite Z.div_mul by lia.
    eexists. split; [reflexivity|]. split.
    { unfold ArrayList.well_formed, ArrayList.inv. simpl.
      rewrite length_replicate. repeat split; (lia || discriminate). }
    simpl. repeat split.
  - intros Hal. unfold with_capacity. rewrite Hwb.
    destruct (Allocate al (cap * Z.pos TSize)) as [[b|] al1]; [discriminate|].
    eexists _, _. split; [reflexivity|]. simpl. repeat split.
    intros Hpos al' t. unfold ArrayList.Add.
    rewrite (Add_rec_stores T TSize) by (simpl; lia). reflexivity.
Qed.


(** *** Erase and Insert back *)

(** X6.  Where [Erase(position, num)] erases (the range ends before the
    last element and the over-long [memmove] stays inside the storage),
    inserting the erased elements back at [position] restores the array:
    both calls return the pointer to [position], the allocator is not
    called, [pData], count and capacity are the ones before the two calls,
    and [operator[]] finds every element where it was. *)
Theorem Erase_then_Insert_restores a al position num src :
  well_formed a -> 0 <= position -> 1 <= num ->
  position + num < numElements a -> numElements a + num - 1 <= capacity a ->
  take (Z.to_nat num) (drop (Z.to_nat position) (elements a)) = Some <$> src ->
  exists a1 a2,
    Erase a position num = Done (ptr_add (pData a) position, a1)
    /\ Insert a1 al position (Some (Outside src)) num = Done (ptr_add (pData a) position, a2, al)
    /\ pData a2 = pData a /\ numElements a2 = numElements a
    /\ capacity a2 = capacity a /\ elements a2 = elements a
    /\ forall i, 0 <= i < numElements a -> subscript a2 i = subscript a i.
Proof.
  intros Hwf Hp Hnum Hlt Hin Hsrc.
  pose proof Hwf as [Hinv Hlen].
  pose proof Hinv as ((Hn0 & Hn) & _).
  assert (Hls : len src = num).
  { apply (f_equal (@length _)) in Hsrc.
    pose proof (length_elements T a ltac:(lia)) as Hle.
    rewrite length_take, length_drop, length_fmap in Hsrc.
    unfold slot in *. lia. }
  destruct (Erase_erases T TSize a position num Hwf Hp Hnum Hlt Hin)
    as (a1 & He & _ & Hwf1 & Hp1 & Hc1 & Hn1 & Hel1).
  destruct (Insert_rec_within 1 a1 al position src num Hwf1
              ltac:(lia) Hnum ltac:(lia) ltac:(lia))
    as (a2 & Hi2 & _ & Hwf2 & Hp2 & Hc2 & Hn2 & _).
  destruct (Erase_Insert_round_trip T TSize a al position num src
              Hwf Hp Hnum Hlt Hin Hsrc)
    as (p1 & a1' & p2 & a2' & He' & Hi2' & _ & _ & Hel2).
  assert (a1' = a1) by congruence. subst a1'.
  assert (a2' = a2) by (unfold ArrayList.Insert in Hi2'; congruence). subst a2'.
  exists a1, a2. split; [exact He|].
  split; [rewrite <- Hp1; exact Hi2|].
  split; [congruence|]. split; [lia|]. split; [congruence|].
  split; [exact Hel2|].
  intros i Hi. apply subscript_same; try assumption; try lia.
  - apply Hwf2.
  - rewrite Hel2. reflexivity.
Qed.

(** *** Growth whose byte size does not fit 32 bits *)

(** X7.  [Add(t)] on a full well-formed array whose doubled capacity takes
    [2 ^ 32] bytes or more: the byte size that [Expand] asks for wraps
    around, and when the allocator grants that smaller block the [memcpy]
    of the elements runs over its end. *)
Theorem Add_overruns_the_new_block a al t b al1 :
  well_formed a -> numElements a = capacity a ->
  2 ^ 32 <= 2 * capacity a * Z.pos TSize ->
  Allocate al (wrap32 (wrap32 (2 * capacity a) * Z.pos TSize)) = (Some b, al1) ->
  wrap32 (wrap32 (2 * capacity a) * Z.pos TSize) / Z.pos TSize < numElements a
  /\ Add a al t = Undefined.
Proof.
  intros Hwf Hfull Hbig Hal.
  pose proof Hwf as [Hinv Hlen].
  pose proof Hinv as ((Hn0 & Hn) & (Hl & Hc) & Hb & _).
  assert (Hcap : 0 < capacity a) by nia.
  assert (HcT : capacity a * Z.pos TSize < 2 ^ 32) by (rewrite <- Hlen; exact Hb).
  assert (Hw : wrap32 (wrap32 (2 * capacity a) * Z.pos TSize)
               = 2 * capacity a * Z.pos TSize - 2 ^ 32).
  { unfold wrap32. rewrite Z.mul_mod_idemp_l by lia.
    symmetry. apply Z.mod_unique with 1; lia. }
  assert (Hslots : wrap32 (wrap32 (2 * capacity a) * Z.pos TSize) / Z.pos TSize
                   < numElements a).
  { rewrite Hw. apply Z.div_lt_upper_bound; lia. }
  split; [exact Hslots|].
  unfold ArrayList.Add. rewrite (Add_rec_grow T TSize) by lia.
  rewrite (Double_eq T TSize).
  destruct (capacity a =? 0) eqn:E; [lia|].
  destruct (ArrayList.Expand T TSize a al (wrap32 (2 * capacity a)))
    as [[[ok a1] al2]| |] eqn:Hex.
  - exfalso.
    apply (Expand_inversion T TSize) in Hex
      as [(_ & _ & Hnone) | (_ & _ & Hfits & _)].
    + rewrite Hal in Hnone. discriminate.
    + lia.
  - reflexivity.
  - exfalso. exact (Expand_defined T TSize _ _ _ Hex).
Qed.

End More.

(** *** The properties at sample arrays *)

Lemma Insert_spec_witness :
  exists a1 al1,
    ArrayList.Insert Z 4 Samples.three (2%positive : Unbounded) 1 (Some (Outside [15])) 1
    = Done (ptr_add (pData a1) 1, a1, al1)
    /\ numElements a1 = 4
    /\ subscript Z a1 1 = Done (Some 15).
Proof.
  destruct (Insert_spec Z 4 Samples.three (2%positive : Unbounded) 1 [15] 1
              well_formed_three) as (_ & _ & _ & Hins).
  destruct (Hins ltac:(simpl; lia) ltac:(lia) ltac:(simpl; lia) ltac:(simpl; lia)
              ltac:(left; simpl; lia))
    as (a1 & al1 & He & _ & _ & Hn & _ & _ & Hnew & _).
  exists a1, al1. split; [exact He|]. split; [exact Hn|].
  exact (Hnew 0 15 ltac:(lia) eq_refl).
Defined.

(** [Insert(0, Get() + 1, 1)] on the array [10, 20, 30]: the [memmove]
    has moved 10 to the slot 1 when the [memcpy] reads it. *)
Lemma Insert_from_the_array_witness :
  exists a1,
    ArrayList.Insert Z 4 Samples.three (2%positive : Unbounded) 0 (Some (Inside 1)) 1
    = Done (Ptr 1 0, a1, 2%positive)
    /\ subscript Z a1 0 = Done (Some 10)
    /\ subscript Z a1 1 = Done (Some 10)
    /\ subscript Z a1 2 = Done (Some 20)
    /\ subscript Z a1 3 = Done (Some 30).
Proof.
  destruct (Insert_from_the_array Z 4 Samples.three (2%positive : Unbounded) 0 1 1
              well_formed_three ltac:(simpl; lia) ltac:(lia)) as [Hok _].
  destruct (Hok ltac:(simpl; lia) ltac:(lia) ltac:(simpl; lia) ltac:(right; lia))
    as (a1 & He & _ & _ & _ & _ & _ & Hnew & Hold).
  exists a1. split; [exact He|].
  split; [exact (Hnew 0 ltac:(lia))|].
  split; [exact (Hold 0 ltac:(simpl; lia))|].
  split; [exact (Hold 1 ltac:(simpl; lia)) | exact (Hold 2 ltac:(simpl; lia))].
Defined.


Lemma Add_within_capacity_witness :
  exists tr a',
    ArrayList.run Z 4 (OpAdd Z <$> [1; 2; 3; 4]) (Clear Z Samples.three)
      (2%positive : Unbounded) = Done (tr, 2%positive)
    /\ last (states Z (Clear Z Samples.three) tr) = Some a'
    /\ elements a' = [Some 1; Some 2; Some 3; Some 4].
Proof.
  destruct (Add_within_capacity Z 4 Samples.three (2%positive : Unbounded)
              [1; 2; 3; 4] well_formed_three) as [_ Hclear].
  destruct (Hclear ltac:(simpl; lia)) as (tr & a' & Hr & Hl & _ & _ & _ & He).
  exists tr, a'. split; [exact Hr|]. split; [exact Hl | exact He].
Defined.

Lemma Assign_spec_witness :
  exists a1,
    ArrayList.Assign Z 4 Samples.three (2%positive : Unbounded) (Some [1; 2]) 2
    = Done (true, a1, 3%positive)
    /\ elements a1 = [Some 1; Some 2].
Proof.
  destruct (Assign_spec Z 4 Samples.three (2%positive : Unbounded) [1; 2] 2)
    as [Hok _].
  - destruct well_formed_three as [Hinv _]. exact Hinv.
  - lia.
  - simpl. lia.
  - simpl. lia.
  - destruct (Hok 2%positive 3%positive eq_refl) as (a1 & He & _ & _ & _ & _ & Hel).
    exists a1. split; [exact He | exact Hel].
Defined.

Lemma with_capacity_spec_witness :
  exists a,
    ArrayList.with_capacity Z 4 (1%positive : Unbounded) 4 = (a, 2%positive)
    /\ capacity a = 4 /\ elements a = [].
Proof.
  destruct (with_capacity_spec Z 4 (1%positive : Unbounded) 4 ltac:(lia)
              ltac:(simpl; lia)) as [Hok _].
  destruct (Hok 1%positive 2%positive eq_refl) as (a & He & _ & _ & Hc & _ & Hel).
  exists a. split; [exact He|]. split; [exact Hc | exact Hel].
Defined.

Lemma Erase_then_Insert_restores_witness :
  exists a1 a2,
    ArrayList.Erase Z 4 Samples.three 0 1 = Done (Ptr 1 0, a1)
    /\ ArrayList.Insert Z 4 a1 (2%positive : Unbounded) 0 (Some (Outside [10])) 1
       = Done (Ptr 1 0, a2, 2%positive)
    /\ elements a2 = elements Samples.three.
Proof.
  destruct (Erase_then_Insert_restores Z 4 Samples.three (2%positive : Unbounded)
              0 1 [10] well_formed_three ltac:(lia) ltac:(lia)
              ltac:(simpl; lia) ltac:(simpl; lia) eq_refl)
    as (a1 & a2 & He & Hi & _ & _ & _ & Hel & _).
  exists a1, a2. split; [exact He|]. split; [exact Hi | exact Hel].
Defined.

(** Two elements of [2 ^ 30] bytes each fill an array of capacity 2; the
    doubled capacity takes [2 ^ 32] bytes, which wraps around to 0. *)
Lemma Add_overruns_the_new_block_witness :
  ArrayList.Add Z 1073741824
    (ArrayList.mkArrayList (Ptr 1 0) [Some 10; Some 20] 2 2)
    (2%positive : Unbounded) 30
  = Undefined.
Proof.
  destruct (Add_overruns_the_new_block Z 1073741824
              (ArrayList.mkArrayList (Ptr 1 0) [Some 10; Some 20] 2 2)
              (2%positive : Unbounded) 30 2%positive 3%positive) as [_ Hadd].
  - unfold ArrayList.well_formed, ArrayList.inv. simpl.
    repeat split; (lia || discriminate).
  - reflexivity.
  - simpl. lia.
  - reflexivity.
  - exact Hadd.
Defined.

End ArrayListMore.

(** ** mj::ArrayListView *)

Module ArrayListViewFacts.
Import ArrayListView.

(** X8.  The view of an [ArrayList<U>] as elements of type [T], for an
    array whose byte width fits 32 bits: the view starts where the array
    starts and counts the whole elements of type [T] that fit the bytes of
    the array.  Its byte width never exceeds the array's and falls short
    of it by less than [sizeof(T)]; the two are equal when [sizeof(T)]
    divides [sizeof(U)]. *)
Theorem view_covers_whole_elements {U : Type} (TSize USize : positive)
    (c : ArrayList.ArrayList U) :
  0 <= ArrayList.numElements c ->
  ArrayList.numElements c * Z.pos USize < 2 ^ 32 ->
  Get (of_ArrayList TSize USize c) = ArrayList.Get U c
  /\ Size (of_ArrayList TSize USize c)
     = ArrayList.numElements c * Z.pos USize / Z.pos TSize
  /\ ByteWidth TSize (of_ArrayList TSize USize c) <= ArrayList.ByteWidth U USize c
  /\ ArrayList.ByteWidth U USize c - ByteWidth TSize (of_ArrayList TSize USize c)
     < Z.pos TSize
  /\ ((Z.pos TSize | Z.pos USize) ->
      Size (of_ArrayList TSize USize c)
      = ArrayList.numElements c * (Z.pos USize / Z.pos TSize)
      /\ ByteWidth TSize (of_ArrayList TSize USize c)
         = ArrayList.ByteWidth U USize c).
Proof.
  intros Hn Hbytes.
  set (n := ArrayList.numElements c) in *.
  assert (Hq : 0 <= n * Z.pos USize / Z.pos TSize <= n * Z.pos USize).
  { split; [apply Z.div_pos; lia|].
    apply Z.div_le_upper_bound; [lia|]. nia. }
  assert (Hqt : n * Z.pos USize / Z.pos TSize * Z.pos TSize <= n * Z.pos USize).
  { rewrite Z.mul_comm. apply Z.mul_div_le. lia. }
  assert (Hrem : n * Z.pos USize - n * Z.pos USize / Z.pos TSize * Z.pos TSize
                 < Z.pos TSize).
  { pose proof (Z.mod_pos_bound (n * Z.pos USize) (Z.pos TSize) ltac:(lia)) as Hm.
    rewrite Z.mod_eq in Hm by lia. lia. }
  assert (Hsize : Size (of_ArrayList TSize USize c)
                  = n * Z.pos USize / Z.pos TSize).
  { unfold Size, of_ArrayList. simpl. fold n.
    rewrite (wrap64_small (n * Z.pos USize)) by lia.
    apply wrap32_small. lia. }
  assert (Hview : ByteWidth TSize (of_ArrayList TSize USize c)
                  = n * Z.pos USize / Z.pos TSize * Z.pos TSize).
  { unfold ByteWidth, ElemSize. rewrite Hsize. apply wrap32_small. nia. }
  assert (Harray : ArrayList.ByteWidth U USize c = n * Z.pos USize).
  { unfold ArrayList.ByteWidth, ArrayList.Size, ArrayList.ElemSize. fold n.
    apply wrap32_small. lia. }
  split; [reflexivity|]. split; [exact Hsize|].
  rewrite Hview, Harray. split; [lia|]. split; [lia|].
  intros [k Hk]. rewrite Hsize, Hk.
  rewrite Z.mul_assoc, !Z.div_mul by lia. split; lia.
Qed.

Lemma view_covers_whole_elements_witness :
  Size (of_ArrayList 2 4 Samples.three) = 6
  /\ ByteWidth 2 (of_ArrayList 2 4 Samples.three) = ArrayList.ByteWidth Z 4 Samples.three.
Proof.
  destruct (view_covers_whole_elements 2 4 Samples.three
              ltac:(simpl; lia) ltac:(simpl; lia)) as (_ & Hs & _ & _ & Hdiv).
  split; [exact Hs|].
  destruct (Hdiv ltac:(exists 2; reflexivity)) as [_ Hw]. exact Hw.
Defined.

End ArrayListViewFacts.

(** ** minmax and swap *)

Module CommonFacts.
Import Common.

(** X9.  [minmax(a, b, outMin, outMax)] for a type whose [operator<] is
    asymmetric: the outputs are the two arguments, [outMax < outMin] never
    holds, and the result is true exactly when [a < b]; for two equal
    arguments, [a] is the minimum and [b] the maximum and yet the result
    is false. *)
Theorem minmax_orders {T : Type} (ltb : T -> T -> bool) (a b : T) :
  (forall x y, ltb x y = true -> ltb y x = false) ->
  exists r outMin outMax,
    minmax T ltb a b = (r, outMin, outMax)
    /\ r = ltb a b
    /\ ltb outMax outMin = false
    /\ (if r then outMin = a /\ outMax = b else outMin = b /\ outMax = a)
    /\ minmax T ltb a a = (false, a, a).
Proof.
  intros Hasym.
  assert (Hirr : ltb a a = false).
  { destruct (ltb a a) eqn:E; [|reflexivity].
    pose proof (Hasym a a E). congruence. }
  unfold minmax. rewrite Hirr. destruct (ltb a b) eqn:E.
  - exists true, a, b. repeat split; auto.
  - exists false, b, a. repeat split; auto.
Qed.

Lemma minmax_orders_witness :
  exists r outMin outMax,
    minmax Z Z.ltb 7 3 = (r, outMin, outMax)
    /\ r = false /\ outMin = 3 /\ outMax = 7.
Proof.
  destruct (minmax_orders Z.ltb 7 3) as (r & lo & hi & He & Hr & _ & Hout & _).
  - intros x y Hxy. lia.
  - exists r, lo, hi. split; [exact He|].
    rewrite Hr in Hout |- *. split; [reflexivity | exact Hout].
Defined.

(** X10.  On integers, [minmax] puts the smaller argument in [outMin] and
    the greater in [outMax] and returns whether [a < b]; after
    [swap(a, b)] the outputs are the same. *)
Theorem minmax_of_integers (a b : Z) :
  minmax Z Z.ltb a b = (a <? b, Z.min a b, Z.max a b)
  /\ (let '(a', b') := swap Z a b in
      minmax Z Z.ltb a' b' = (b <? a, Z.min a b, Z.max a b)).
Proof.
  unfold minmax, swap. split.
  - destruct (a <? b) eqn:E; repeat f_equal; lia.
  - destruct (b <? a) eqn:E; repeat f_equal; lia.
Qed.

End CommonFacts.

(** ** mj::MemoryBuffer, sequences of calls that fit *)

Module MemoryBufferMore.
Import MemoryBuffer MemoryBufferFacts.

Local Abbreviation len l := (Z.of_nat (length l)) (only parsing).

(** *** memcpy *)

Lemma store_outside bs : forall m p a,
  a < p \/ p + len bs <= a -> store m p bs a = m a.
Proof.
  induction bs as [|b bs IH]; intros m p a Ha; [reflexivity|].
  cbn [store]. simpl length in Ha. rewrite IH by lia.
  destruct (a =? p) eqn:E; [lia | reflexivity].
Qed.

Lemma store_inside bs : forall m p a,
  p <= a < p + len bs -> In (store m p bs a) bs.
Proof.
  induction bs as [|b bs IH]; intros m p a Ha; [simpl in Ha; lia|].
  cbn [store]. simpl length in Ha.
  destruct (Z.eq_dec a p) as [->|Hne].
  - left. rewrite store_outside by lia. rewrite Z.eqb_refl. reflexivity.
  - right. apply IH. lia.
Qed.

Lemma store_app l1 : forall m p l2,
  store m p (l1 ++ l2) = store (store m p l1) (p + len l1) l2.
Proof.
  induction l1 as [|b l1 IH]; intros m p l2.
  - simpl. rewrite Z.add_0_r. reflexivity.
  - cbn [store app]. rewrite IH. f_equal. simpl length. lia.
Qed.

Lemma load_ext m m' p n :
  (forall a, p <= a < p + Z.of_nat n -> m a = m' a) -> load m p n = load m' p n.
Proof.
  intros Hext. unfold load. apply map_ext_in.
  intros i Hi. apply in_seq in Hi. apply Hext. lia.
Qed.

Lemma load_succ m p n : load m p (S n) = m p :: load m (p + 1) n.
Proof.
  unfold load. cbn [seq map]. rewrite Z.add_0_r. f_equal.
  rewrite <- seq_shift, map_map. apply map_ext. intros i. f_equal. lia.
Qed.

Lemma load_store bs : forall m p, load (store m p bs) p (length bs) = bs.
Proof.
  induction bs as [|b bs IH]; intros m p; [reflexivity|].
  cbn [length store]. rewrite load_succ, IH. f_equal.
  rewrite store_outside by lia. rewrite Z.eqb_refl. reflexivity.
Qed.

Lemma length_copies (obj : list byte) k :
  len (concat (replicate k obj)) = Z.of_nat k * len obj.
Proof.
  induction k as [|k IH]; [reflexivity|].
  cbn [replicate concat]. rewrite length_app. lia.
Qed.

Lemma load_store_copies (obj : list byte) k : forall m p i,
  (i < k)%nat ->
  load (store m p (concat (replicate k obj))) (p + Z.of_nat i * len obj) (length obj)
  = obj.
Proof.
  induction k as [|k IH]; intros m p i Hi; [lia|].
  cbn [replicate concat]. rewrite store_app.
  destruct i as [|i].
  - rewrite Z.mul_0_l, Z.add_0_r.
    rewrite (load_ext _ (store m p obj)); [apply load_store|].
    intros a Ha. apply store_outside. lia.
  - replace (p + Z.of_nat (S i) * len obj)
      with (p + len obj + Z.of_nat i * len obj) by lia.
    apply IH. lia.
Qed.

(** *** The cursor inside its range *)

Lemma in_range_SizeLeft c : in_range c -> SizeLeft c = end_ c - position c.
Proof.
  intros [Hp He]. unfold SizeLeft. apply wrap64_small. lia.
Qed.

Lemma advance_stays c n :
  in_range c -> 0 <= n <= SizeLeft c ->
  advance c n = mkMemoryBuffer (end_ c) (position c + n)
  /\ in_range (advance c n).
Proof.
  intros Hc Hn. pose proof (in_range_SizeLeft c Hc) as Hs.
  destruct Hc as [Hp He].
  assert (Ha : advance c n = mkMemoryBuffer (end_ c) (position c + n)).
  { unfold advance. f_equal. apply wrap64_small. lia. }
  split; [exact Ha|]. rewrite Ha. unfold in_range. simpl. lia.
Qed.

Lemma total_nonneg ops : 0 <= total ops.
Proof.
  induction ops as [|o ops IH]; simpl; [lia|].
  pose proof (required_nonneg o). lia.
Qed.

Lemma written_length o c m a :
  a < position c \/ position c + compared o <= a -> snd (effect o c m) a = m a.
Proof.
  intros Ha. destruct o; simpl in *; try reflexivity; apply store_outside; exact Ha.
Qed.

Lemma run_step o ops c m :
  compared o <= SizeLeft c ->
  run (o :: ops) (c, m)
  = (fst (effect o c m) :: fst (run ops (advance c (compared o), snd (effect o c m))),
     snd (run ops (advance c (compared o), snd (effect o c m)))).
Proof.
  intros Hfit. cbn [run]. rewrite step_checks_first.
  destruct (SizeLeft c >=? compared o) eqn:E; [|lia].
  cbn [fst snd]. destruct (run ops _) as [rs st]. reflexivity.
Qed.

Lemma run_refused o ops c m :
  SizeLeft c < compared o ->
  run (o :: ops) (c, m) = (refusal o :: map refusal ops, (poisoned, m)).
Proof.
  intros Hfail. cbn [run]. rewrite step_checks_first.
  destruct (SizeLeft c >=? compared o) eqn:E; [lia|].
  rewrite run_poisoned. reflexivity.
Qed.

Lemma run_fits ops : forall c m,
  in_range c -> Forall (fun o => required o < 2 ^ 64) ops ->
  total ops <= SizeLeft c ->
  fst (snd (run ops (c, m))) = mkMemoryBuffer (end_ c) (position c + total ops).
Proof.
  induction ops as [|o ops IH]; intros c m Hc Hsizes Hfit.
  - simpl. rewrite Z.add_0_r. destruct c. reflexivity.
  - apply Forall_cons in Hsizes as [Ho Hsizes].
    cbn [total foldr] in Hfit. fold (total ops) in Hfit.
    pose proof (compared_required o Ho) as Hcmp.
    pose proof (required_nonneg o) as Hr. pose proof (total_nonneg ops) as Ht.
    destruct (advance_stays c (compared o) Hc ltac:(lia)) as [Ha Hc1].
    pose proof (in_range_SizeLeft c Hc) as Hs.
    pose proof (in_range_SizeLeft _ Hc1) as Hs1.
    rewrite run_step by lia. cbn [snd].
    rewrite IH; [| exact Hc1 | exact Hsizes | rewrite Hs1, Ha; simpl; lia ].
    rewrite Ha. simpl. f_equal. fold (total ops). lia.
Qed.

Lemma run_overflows ops : forall c m,
  in_range c -> Forall (fun o => required o < 2 ^ 64) ops ->
  SizeLeft c < total ops ->
  fst (snd (run ops (c, m))) = poisoned.
Proof.
  induction ops as [|o ops IH]; intros c m Hc Hsizes Hfail.
  - simpl in Hfail. pose proof (in_range_SizeLeft c Hc). destruct Hc. lia.
  - apply Forall_cons in Hsizes as [Ho Hsizes].
    cbn [total foldr] in Hfail. fold (total ops) in Hfail.
    pose proof (compared_required o Ho) as Hcmp.
    pose proof (required_nonneg o) as Hr.
    destruct (Z_lt_le_dec (SizeLeft c) (compared o)) as [Hlt|Hle].
    + rewrite run_refused by exact Hlt. reflexivity.
    + destruct (advance_stays c (compared o) Hc ltac:(lia)) as [Ha Hc1].
      pose proof (in_range_SizeLeft c Hc) as Hs.
      pose proof (in_range_SizeLeft _ Hc1) as Hs1.
      rewrite run_step by lia. cbn [snd].
      apply IH; [exact Hc1 | exact Hsizes |]. rewrite Hs1, Ha. simpl. lia.
Qed.

Lemma run_cursor ops : forall c m,
  in_range c ->
  fst (snd (run ops (c, m))) = poisoned
  \/ in_range (fst (snd (run ops (c, m))))
     /\ end_ (fst (snd (run ops (c, m)))) = end_ c
     /\ position c <= position (fst (snd (run ops (c, m)))).
Proof.
  induction ops as [|o ops IH]; intros c m Hc.
  - right. simpl. split; [exact Hc | lia].
  - pose proof (compared_nonneg o) as Hr.
    destruct (Z_lt_le_dec (SizeLeft c) (compared o)) as [Hlt|Hle].
    + left. rewrite run_refused by exact Hlt. reflexivity.
    + destruct (advance_stays c (compared o) Hc ltac:(lia)) as [Hadv Hc1].
      rewrite run_step by lia. cbn [snd].
      destruct (IH (advance c (compared o)) (snd (effect o c m)) Hc1)
        as [Hp | (Hin & He & Hpos)]; [left; exact Hp | right].
      assert (He1 : end_ (advance c (compared o)) = end_ c)
        by (rewrite Hadv; reflexivity).
      assert (Hp1 : position (advance c (compared o)) = position c + compared o)
        by (rewrite Hadv; reflexivity).
      split; [exact Hin|]. split; [congruence | lia].
Qed.

Lemma run_frame ops : forall c m a,
  in_range c -> a < position c \/ end_ c <= a ->
  snd (snd (run ops (c, m))) a = m a.
Proof.
  induction ops as [|o ops IH]; intros c m a Hc Ha; [reflexivity|].
  pose proof (compared_nonneg o) as Hr.
  destruct (Z_lt_le_dec (SizeLeft c) (compared o)) as [Hlt|Hle].
  - rewrite run_refused by exact Hlt. reflexivity.
  - destruct (advance_stays c (compared o) Hc ltac:(lia)) as [Hadv Hc1].
    pose proof (in_range_SizeLeft c Hc) as Hs.
    rewrite run_step by lia. cbn [snd].
    rewrite IH; [| exact Hc1 | rewrite Hadv; simpl; lia ].
    apply written_length. lia.
Qed.

Lemma run_pointers ops : forall c m,
  in_range c -> Forall (points_into c) (fst (run ops (c, m))).
Proof.
  induction ops as [|o ops IH]; intros c m Hc; [constructor|].
  pose proof (compared_nonneg o) as Hr.
  destruct (Z_lt_le_dec (SizeLeft c) (compared o)) as [Hlt|Hle].
  - rewrite run_refused by exact Hlt. cbn [fst].
    change (refusal o :: map refusal ops) with (map refusal (o :: ops)).
    apply List.Forall_forall. intros r Hin. apply in_map_iff in Hin as (o' & <- & _).
    destruct o'; simpl; auto.
  - destruct (advance_stays c (compared o) Hc ltac:(lia)) as [Hadv Hc1].
    pose proof (in_range_SizeLeft c Hc) as Hs.
    rewrite run_step by lia. cbn [fst]. constructor.
    + destruct Hc as [Hp He]. destruct o; simpl; auto; right; lia.
    + eapply Forall_impl; [apply (IH _ _ Hc1)|].
      intros r. rewrite Hadv. destruct r; simpl; auto.
      intros [Hz|Hin]; [left; exact Hz | right; lia].
Qed.

(** X11.  For a cursor inside its range and a sequence of calls in which
    no array takes more bytes than [size_t] holds, [Good()] after the
    sequence tells whether the calls fit together: it is true exactly
    when the bytes they ask for, summed up, do not exceed [SizeLeft()].
    Then the position has moved forward by that sum and [SizeLeft()] has
    dropped by it; otherwise the cursor is cleared. *)
Theorem Good_tells_whether_all_fit ops c m :
  in_range c -> Forall (fun o => required o < 2 ^ 64) ops ->
  Good (fst (snd (run ops (c, m)))) = (total ops <=? SizeLeft c)
  /\ (total ops <= SizeLeft c ->
      Position (fst (snd (run ops (c, m)))) = position c + total ops
      /\ end_ (fst (snd (run ops (c, m)))) = end_ c
      /\ SizeLeft (fst (snd (run ops (c, m)))) = SizeLeft c - total ops)
  /\ (SizeLeft c < total ops -> fst (snd (run ops (c, m))) = poisoned).
Proof.
  intros Hc Hsizes. pose proof (in_range_SizeLeft c Hc) as Hs.
  pose proof (total_nonneg ops) as Ht.
  assert (Hfit : total ops <= SizeLeft c ->
                 fst (snd (run ops (c, m)))
                 = mkMemoryBuffer (end_ c) (position c + total ops))
    by (intros Hle; apply run_fits; assumption).
  split; [|split].
  - destruct (Z_lt_le_dec (SizeLeft c) (total ops)) as [Hlt|Hle].
    + rewrite run_overflows by assumption.
      destruct (total ops <=? SizeLeft c) eqn:E; [lia | reflexivity].
    + rewrite Hfit by exact Hle. destruct Hc as [Hp He].
      unfold Good. simpl.
      destruct (total ops <=? SizeLeft c) eqn:E; [|lia].
      destruct (end_ c =? 0) eqn:E1; [lia|].
      destruct (position c + total ops =? 0) eqn:E2; [lia | reflexivity].
  - intros Hle. rewrite Hfit by exact Hle. destruct Hc as [Hp He].
    unfold Position, SizeLeft in *. simpl.
    split; [reflexivity|]. split; [reflexivity|].
    rewrite wrap64_small by lia. lia.
  - intros Hlt. apply run_overflows; assumption.
Qed.

(** X12.  A sequence of calls on a cursor inside its range never touches a
    byte outside the range it started with, whether the calls fit or not,
    and every pointer it hands out is null or points into that range. *)
Theorem run_stays_inside ops c m :
  in_range c ->
  (forall a, a < position c \/ end_ c <= a -> snd (snd (run ops (c, m))) a = m a)
  /\ Forall (points_into c) (fst (run ops (c, m)))
  /\ (fst (snd (run ops (c, m))) = poisoned
      \/ in_range (fst (snd (run ops (c, m))))
         /\ end_ (fst (snd (run ops (c, m)))) = end_ c
         /\ position c <= position (fst (snd (run ops (c, m))))).
Proof.
  intros Hc. split; [|split].
  - intros a Ha. apply run_frame; assumption.
  - exact (run_pointers ops c m Hc).
  - exact (run_cursor ops c m Hc).
Qed.

(** X13.  Objects written one after the other through a cursor inside its
    range, all of them fitting, are read back by as many calls of [Read]
    through a copy of the cursor made before the writes: each call reads
    the object that the matching call wrote, and the copy ends where the
    writing cursor ended. *)
Theorem Write_then_Read ts : forall ts0 c m,
  in_range c -> total (OpWrite <$> ts) <= SizeLeft c ->
  Forall2 (fun t t0 => length t0 = length t) ts ts0 ->
  run (OpRead <$> ts0) (c, snd (snd (run (OpWrite <$> ts) (c, m))))
  = (RObject <$> ts, snd (run (OpWrite <$> ts) (c, m))).
Proof.
  induction ts as [|t ts IH]; intros ts0 c m Hc Hfit Hlen.
  - inversion Hlen; subst. reflexivity.
  - inversion Hlen as [|t' t0 ts' ts0' Hl Hrest]; subst. clear Hlen.
    cbn [fmap list_fmap] in *.
    change (list_fmap _ _ OpWrite ts) with (OpWrite <$> ts) in *.
    change (list_fmap _ _ OpRead ts0') with (OpRead <$> ts0').
    change (list_fmap _ _ RObject ts) with (RObject <$> ts).
    cbn [total foldr required] in Hfit. fold (total (OpWrite <$> ts)) in Hfit.
    pose proof (total_nonneg (OpWrite <$> ts)) as Ht.
    assert (Hreq : compared (OpWrite t) = len t) by reflexivity.
    assert (Hreq0 : compared (OpRead t0) = len t) by (simpl; lia).
    destruct (advance_stays c (len t) Hc ltac:(lia)) as [Hadv Hc1].
    pose proof (in_range_SizeLeft c Hc) as Hs.
    pose proof (in_range_SizeLeft _ Hc1) as Hs1.
    rewrite (run_step (OpWrite t)) by lia.
    rewrite (run_step (OpRead t0)) by lia.
    rewrite Hreq, Hreq0. cbn [effect fst snd].
    rewrite (IH ts0' (advance c (len t)) (store m (position c) t) Hc1);
      [| rewrite Hs1, Hadv; simpl; lia | exact Hrest ].
    cbn [fst snd]. f_equal. f_equal. f_equal. rewrite Hl.
    rewrite (load_ext _ (store m (position c) t)); [apply load_store|].
    intros a Ha. apply run_frame; [exact Hc1|].
    rewrite Hadv. simpl. lia.
Qed.

(** The loop of [NewArrayUnaligned] inside the range, and behind it. *)
Lemma construct_fits (obj : list byte) k : forall m lo hi p,
  lo <= p -> p + Z.of_nat k * len obj <= hi ->
  construct m lo hi p obj k = Some (store m p (concat (replicate k obj))).
Proof.
  induction k as [|k IH]; intros m lo hi p Hlo Hhi; [reflexivity|].
  cbn [construct replicate concat].
  destruct (_ && _) eqn:E; [|nia].
  rewrite IH by nia. rewrite store_app. reflexivity.
Qed.

Lemma construct_overruns (obj : list byte) k : forall m lo hi p,
  p <= hi -> hi < p + Z.of_nat k * len obj ->
  construct m lo hi p obj k = None.
Proof.
  induction k as [|k IH]; intros m lo hi p Hp Hhi; [lia|].
  cbn [construct].
  destruct (_ && _) eqn:E; [|reflexivity].
  apply IH; nia.
Qed.

(** X14.  [NewArrayUnaligned<T>(numElements)] on a cursor inside its
    range, when [numElements * sizeof(T)] fits [size_t].  If the bytes fit
    it returns the old position, moves the position behind the array,
    leaves every byte outside the array untouched and a default-constructed
    object in each of its [numElements] slots.  If they do not fit it
    returns null, clears the cursor and writes nothing. *)
Theorem NewArrayUnaligned_spec c m obj n :
  in_range c -> Z.of_N n * len obj < 2 ^ 64 ->
  (Z.of_N n * len obj <= SizeLeft c ->
   exists m',
     NewArrayUnaligned c m obj n
     = Done (position c, m',
             mkMemoryBuffer (end_ c) (position c + Z.of_N n * len obj))
     /\ (forall i, 0 <= i < Z.of_N n ->
           load m' (position c + i * len obj) (length obj) = obj)
     /\ (forall a, a < position c \/ position c + Z.of_N n * len obj <= a ->
           m' a = m a))
  /\ (SizeLeft c < Z.of_N n * len obj ->
      NewArrayUnaligned c m obj n = Done (0, m, poisoned)).
Proof.
  intros Hc Hsmall.
  assert (Hw : wrap64 (Z.of_N n * len obj) = Z.of_N n * len obj)
    by (apply wrap64_small; lia).
  pose proof (in_range_SizeLeft c Hc) as Hs.
  unfold NewArrayUnaligned. rewrite Hw. split.
  - intros Hfit.
    destruct (SizeLeft c >=? Z.of_N n * len obj) eqn:E; [|lia].
    destruct (advance_stays c (Z.of_N n * len obj) Hc ltac:(lia)) as [Hadv _].
    rewrite Hadv, construct_fits by lia.
    eexists. split; [reflexivity|]. split.
    + intros i Hi.
      replace i with (Z.of_nat (Z.to_nat i)) at 1 by lia.
      apply load_store_copies. lia.
    + intros a Ha. apply store_outside. rewrite length_copies. lia.
  - intros Hfail.
    destruct (SizeLeft c >=? Z.of_N n * len obj) eqn:E; [lia | reflexivity].
Qed.

(** X15.  [NewArrayUnaligned<T>(numElements)] on a cursor inside its
    range, when [numElements * sizeof(T)] does not fit [size_t]: the
    product wraps around, and when the wrapped product fits the bytes left
    the call does not refuse; its loop constructs [numElements] objects,
    which do not fit the range, and the call has no defined result. *)
Theorem NewArrayUnaligned_overruns c m obj n :
  in_range c ->
  wrap64 (Z.of_N n * len obj) <= SizeLeft c < Z.of_N n * len obj ->
  (SizeLeft c >=? wrap64 (Z.of_N n * len obj)) = true
  /\ NewArrayUnaligned c m obj n = Undefined.
Proof.
  intros Hc [Hfit Hover]. pose proof (in_range_SizeLeft c Hc) as Hs.
  assert (Hcheck : (SizeLeft c >=? wrap64 (Z.of_N n * len obj)) = true) by lia.
  split; [exact Hcheck|].
  unfold NewArrayUnaligned. rewrite Hcheck.
  destruct Hc as [Hp He].
  rewrite construct_overruns by lia. reflexivity.
Qed.

(** *** The properties at sample cursors *)

Lemma Good_tells_whether_all_fit_witness :
  let m := fun _ : Z => "000"%byte in
  Good (fst (snd (run [OpSkip 4; OpReserveArray 2 2; OpRead ["000"%byte]]
                    (of_size 4096 8, m))))
  = false.
Proof.
  intros m.
  destruct (Good_tells_whether_all_fit
              [OpSkip 4; OpReserveArray 2 2; OpRead ["000"%byte]]
              (of_size 4096 8) m) as [Hgood _].
  - unfold in_range. vm_compute. repeat split; discriminate.
  - repeat constructor.
  - etransitivity; [exact Hgood | reflexivity].
Defined.

Lemma run_stays_inside_witness :
  let m := fun _ : Z => "000"%byte in
  snd (snd (run [OpWrite ["001"; "002"]%byte; OpNew ["003"%byte]]
              (of_size 4096 2, m))) 4098
  = "000"%byte.
Proof.
  intros m.
  destruct (run_stays_inside [OpWrite ["001"; "002"]%byte; OpNew ["003"%byte]]
              (of_size 4096 2) m) as [Hframe _].
  - unfold in_range. vm_compute. repeat split; discriminate.
  - apply Hframe. right. vm_compute. discriminate.
Defined.

Lemma Write_then_Read_witness :
  let m := fun _ : Z => "000"%byte in
  let ts := [["001"; "002"]; ["003"]]%byte in
  let ts0 := [["000"; "000"]; ["000"]]%byte in
  run (OpRead <$> ts0) (of_size 4096 8, snd (snd (run (OpWrite <$> ts) (of_size 4096 8, m))))
  = (RObject <$> ts, snd (run (OpWrite <$> ts) (of_size 4096 8, m))).
Proof.
  intros m ts ts0.
  apply (Write_then_Read ts ts0 (of_size 4096 8) m).
  - unfold in_range. vm_compute. repeat split; discriminate.
  - vm_compute. discriminate.
  - repeat constructor.
Defined.

Lemma NewArrayUnaligned_spec_witness :
  let m := fun _ : Z => "000"%byte in
  exists m',
    NewArrayUnaligned (of_size 4096 8) m ["001"; "002"]%byte 3
    = Done (4096, m', mkMemoryBuffer 4104 4102)
    /\ load m' 4100 2 = ["001"; "002"]%byte.
Proof.
  intros m.
  destruct (NewArrayUnaligned_spec (of_size 4096 8) m ["001"; "002"]%byte 3)
    as [Hok _].
  - unfold in_range. vm_compute. repeat split; discriminate.
  - simpl. lia.
  - destruct Hok as (m' & He & Hload & _).
    + vm_compute. discriminate.
    + exists m'. split; [exact He|]. exact (Hload 2 ltac:(lia)).
Defined.

(** [2 ^ 63] objects of two bytes take [2 ^ 64] bytes, which wraps around
    to 0: the call does not refuse on a range of 8 bytes. *)
Lemma NewArrayUnaligned_overruns_witness :
  let m := fun _ : Z => "000"%byte in
  NewArrayUnaligned (of_range 4096 4104) m ["001"; "002"]%byte 9223372036854775808
  = Undefined.
Proof.
  intros m.
  apply (NewArrayUnaligned_overruns (of_range 4096 4104) m
           ["001"; "002"]%byte 9223372036854775808).
  - unfold in_range. vm_compute. repeat split; discriminate.
  - vm_compute. split; [discriminate | reflexivity].
Defined.

End MemoryBufferMore.
